(** * Nahara's Node Graph: flattening, evaluation order and evaluation

    A shallow embedding of [graph.ts] and of [calculate] of
    [geometry.ts] (with the node-type contract of [node.ts]) and the
    properties of [flatten], [buildEvalGraph] and [calculate].

    Modelling conventions.
    - A JavaScript object used as a string-keyed record whose enumeration
      order is observable ([incoming], the socket descriptors returned by
      [input(config)]) is an association list in enumeration order; a
      well-formed object has pairwise distinct keys.  [dict_get] reads an
      own property.
    - The objects that the evaluator reads by a computed key
      ([element.incoming[socket]], [result[name]]) are plain objects
      with the standard [Object.prototype]: a read that finds no own
      property falls back on its members ([readOwnOrInherited],
      [readField]).  The read [element.incoming[e.id]] of [flatten] is
      modelled on the graphs with [plainExports], where it finds an own
      property or nothing.
    - A [Map] and the own properties of the records exchanged with
      [evaluate] are [gmap]s.
    - Thrown errors, callbacks that do not return and loops that may run
      forever are made explicit by the [outcome] type; loops take a fuel
      argument. *)

From stdpp Require Import base option list list_numbers strings gmap fin_maps.
From Stdlib Require Import ZArith Lia.

Local Open Scope string_scope.
Local Open Scope list_scope.

(** ** Outcomes of fallible code *)

Inductive outcome (A : Type) : Type :=
| Returned (a : A)
| Thrown (msg : string)
| OutOfFuel.
Arguments Returned {A} a.
Arguments Thrown {A} msg.
Arguments OutOfFuel {A}.

Definition obind {A B : Type} (m : outcome A) (k : A -> outcome B) : outcome B :=
  match m with
  | Returned a => k a
  | Thrown msg => Thrown msg
  | OutOfFuel => OutOfFuel
  end.

(** ** JavaScript values and records *)

(** The engine never inspects socket values or configurations; a small
    universe with [undefined] is enough to run it.  [VNum n] is the
    number [n], an integer that a double represents ([VNum 0] stands for
    both zeros).  [VObjectPrototype m] is what the read of the name [m]
    gives on a plain object without own property [m]: the method [m] of
    [Object.prototype], or the prototype itself for [__proto__].
    [VOther] is a value that the model does not track: a
    number that is no integer or that it cannot tell exactly, the result
    of arithmetic on values that are no numbers. *)
Inductive value : Type :=
| VUndefined
| VNull
| VBool (b : bool)
| VNum (n : Z)
| VStr (s : string)
| VObjectPrototype (member : string)
| VOther.

Definition number : Type := Z.

(** An object enumerated with [for ... in]: entries in enumeration order. *)
Definition Dict (V : Type) : Type := list (string * V).

Fixpoint dict_get {V : Type} (d : Dict V) (k : string) : option V :=
  match d with
  | [] => None
  | (k', v) :: rest => if decide (k' = k) then Some v else dict_get rest k
  end.

Definition dict_keys {V : Type} (d : Dict V) : list string := map fst d.

(** The names that a plain object inherits from [Object.prototype]. *)
Definition objectPrototypeKeys : list string :=
  [ "constructor"; "hasOwnProperty"; "isPrototypeOf"; "propertyIsEnumerable";
    "toLocaleString"; "toString"; "valueOf"; "__proto__";
    "__defineGetter__"; "__defineSetter__"; "__lookupGetter__"; "__lookupSetter__" ].

Definition inheritedKey (k : string) : bool :=
  existsb (fun name => bool_decide (name = k)) objectPrototypeKeys.

(** The outcome of the read [object[k]] on a plain object. *)
Inductive Read (V : Type) : Type :=
| Own (v : V)
| Inherited
| Absent.
Arguments Own {V} v.
Arguments Inherited {V}.
Arguments Absent {V}.

Definition readOwnOrInherited {V : Type} (d : Dict V) (k : string) : Read V :=
  match dict_get d k with
  | Some v => Own v
  | None => if inheritedKey k then Inherited else Absent
  end.

(** ** Graph element model ([graph.ts], lines 28-112) *)

(** Modelled from the spec: [type.ts] is not part of the sources; the
    socket type descriptor is an opaque tag never interpreted by the
    engine. *)
Inductive AnyTypeDesc : Type := TypeTag (name : string).

Record Incoming : Type := mkIncoming {
  inc_elementId : string;
  inc_socket : string
}.

Record FrameElement : Type := mkFrame {
  frame_elementId : string;
  frame_label : option string;
  childrenIds : list string
}.

Record NodeElement : Type := mkNode {
  elementId : string;
  label : option string;
  x : number;
  y : number;
  width : number;
  typeId : string;
  config : value;
  incoming : Dict Incoming
}.

Record GroupInputExport : Type := mkGroupInputExport {
  gie_id : string;
  gie_label : option string;
  gie_type : AnyTypeDesc
}.

Record GroupOutputExport : Type := mkGroupOutputExport {
  goe_id : string;
  goe_label : option string;
  goe_type : AnyTypeDesc;
  goe_target : Incoming
}.

Record GroupInputElement : Type := mkGroupInput {
  gin_elementId : string;
  gin_label : option string;
  gin_x : number;
  gin_y : number;
  gin_width : number;
  gin_exports : list GroupInputExport
}.

Record GroupOutputElement : Type := mkGroupOutput {
  gout_elementId : string;
  gout_label : option string;
  gout_x : number;
  gout_y : number;
  gout_width : number;
  gout_exports : list GroupOutputExport
}.

(** The fields of a [GroupElement] other than its subgraph. *)
Record GroupElement : Type := mkGroup {
  group_elementId : string;
  group_label : option string;
  group_x : number;
  group_y : number;
  group_width : number;
  group_incoming : Dict Incoming
}.

#[warnings="-register-all"]
Inductive GraphElement : Type :=
| Frame (f : FrameElement)
| Node (n : NodeElement)
| Group (g : GroupElement) (graph : list GraphElement)
| GroupInput (gi : GroupInputElement)
| GroupOutput (go : GroupOutputElement).

(** [NodeGraph] is the record [{ graph }]; it is identified with its only field. *)
Definition NodeGraph : Type := list GraphElement.

(** ** [flatten] ([graph.ts], lines 120-164) *)

(** The template literal [`${elementId}::${socket}`] keying the redirect table. *)
Definition redirectKey (owner socket : string) : string :=
  owner +:+ "::" +:+ socket.

(** [graph.find((e) => e.elementType == "group-input")] *)
Fixpoint findGroupInput (graph : list GraphElement) : option GroupInputElement :=
  match graph with
  | [] => None
  | GroupInput gi :: _ => Some gi
  | _ :: rest => findGroupInput rest
  end.

(** [graph.find((e) => e.elementType == "group-output")] *)
Fixpoint findGroupOutput (graph : list GraphElement) : option GroupOutputElement :=
  match graph with
  | [] => None
  | GroupOutput go :: _ => Some go
  | _ :: rest => findGroupOutput rest
  end.

(** The redirect table.  A stored value may be [undefined] (an exported
    group input that the group's own [incoming] does not wire): [None]. *)
Abbreviation Redirects := (gmap string (option Incoming)).

(** [groupIn.exports.forEach((e) => redirects.set(`${groupIn.elementId}::${e.id}`, element.incoming[e.id]))]
    The read [element.incoming[e.id]] is an own-property read here: the
    table holds socket references only, so the definition covers the
    groups whose unwired exports do not carry the name of a member of
    [Object.prototype] (for such a name the code stores the inherited
    member). *)
Definition registerInputs (g : GroupElement) (groupIn : GroupInputElement)
    (redirects : Redirects) : Redirects :=
  fold_left
    (fun r e => <[redirectKey (gin_elementId groupIn) (gie_id e) := dict_get (group_incoming g) (gie_id e)]> r)
    (gin_exports groupIn) redirects.

(** [groupOut.exports.forEach((e) => redirects.set(`${element.elementId}::${e.id}`, e.target))] *)
Definition registerOutputs (g : GroupElement) (groupOut : GroupOutputElement)
    (redirects : Redirects) : Redirects :=
  fold_left
    (fun r e => <[redirectKey (group_elementId g) (goe_id e) := Some (goe_target e)]> r)
    (gout_exports groupOut) redirects.

(** [redirects.get(...)] followed by the truthiness test [if (redirectTo)]. *)
Definition redirectOf (redirects : Redirects) (inc : Incoming) : option Incoming :=
  match redirects !! redirectKey (inc_elementId inc) (inc_socket inc) with
  | Some (Some target) => Some target
  | _ => None
  end.

(** The [for (const socket in incoming)] loop of one element; [changed]
    is the flag shared by the whole pass. *)
Fixpoint rewriteIncoming (redirects : Redirects) (entries : Dict Incoming)
    (changed : bool) : Dict Incoming * bool :=
  match entries with
  | [] => ([], changed)
  | (socket, inc) :: rest =>
    match redirectOf redirects inc with
    | Some redirectTo =>
      let '(rest', changed') := rewriteIncoming redirects rest true in
      ((socket, redirectTo) :: rest', changed')
    | None =>
      let '(rest', changed') := rewriteIncoming redirects rest changed in
      ((socket, inc) :: rest', changed')
    end
  end.

Definition withIncoming (e : NodeElement) (inc : Dict Incoming) : NodeElement :=
  mkNode (elementId e) (label e) (x e) (y e) (width e) (typeId e) (config e) inc.

(** The callback of [result.map]: [return changed ? { ...e, incoming } : e]. *)
Definition rewriteElement (redirects : Redirects) (e : NodeElement)
    (changed : bool) : NodeElement * bool :=
  let '(inc, changed') := rewriteIncoming redirects (incoming e) changed in
  (if changed' then withIncoming e inc else e, changed').

(** One round of the [do ... while (changed)] loop, started with
    [changed = false] by [rewritePass redirects result false]. *)
Fixpoint rewritePass (redirects : Redirects) (result : list NodeElement)
    (changed : bool) : list NodeElement * bool :=
  match result with
  | [] => ([], changed)
  | e :: rest =>
    let '(e', changed1) := rewriteElement redirects e changed in
    let '(rest', changed2) := rewritePass redirects rest changed1 in
    (e' :: rest', changed2)
  end.

(** The [do ... while (changed)] loop; [fuel] bounds the number of rounds. *)
Fixpoint rewriteLoop (fuel : nat) (redirects : Redirects)
    (result : list NodeElement) : outcome (list NodeElement) :=
  match fuel with
  | O => OutOfFuel
  | S fuel' =>
    let '(result', changed) := rewritePass redirects result false in
    if changed then rewriteLoop fuel' redirects result' else Returned result'
  end.

Section FlattenBody.
(** The recursive call [flatten(element)] on a group element. *)
Variable flattenNested : GraphElement -> outcome (list NodeElement).

(** The [for (const element of graph.graph)] loop. *)
Fixpoint collect (elements : list GraphElement) (flattened : list NodeElement)
    (redirects : Redirects) : outcome (list NodeElement * Redirects) :=
  match elements with
  | [] => Returned (flattened, redirects)
  | element :: rest =>
    match element with
    | Node n => collect rest (flattened ++ [n]) redirects
    | Group g sub =>
      match findGroupInput sub, findGroupOutput sub with
      | Some groupIn, Some groupOut =>
        let redirects' := registerOutputs g groupOut (registerInputs g groupIn redirects) in
        match flattenNested element with
        | Returned inner => collect rest (flattened ++ inner) redirects'
        | Thrown msg => Thrown msg
        | OutOfFuel => OutOfFuel
        end
      | _, _ => Thrown ("Group " +:+ group_elementId g +:+ " must have input and output")
      end
    | _ => collect rest flattened redirects
    end
  end.

Definition flattenBody (fuel : nat) (graph : list GraphElement) : outcome (list NodeElement) :=
  obind (collect graph [] ∅) (fun '(flattened, redirects) => rewriteLoop fuel redirects flattened).
End FlattenBody.

(** [flatten] applied to a group element (its [graph] field is the
    subgraph); [collect] calls it on group elements only. *)
Fixpoint flattenGroup (fuel : nat) (element : GraphElement) {struct element}
    : outcome (list NodeElement) :=
  match element with
  | Group _ sub => flattenBody (flattenGroup fuel) fuel sub
  | _ => Returned []
  end.

Definition flatten (fuel : nat) (graph : NodeGraph) : outcome (list NodeElement) :=
  flattenBody (flattenGroup fuel) fuel graph.

(** ** Node types ([node.ts], lines 217-269) *)

Record InputSocket : Type := mkInputSocket {
  is_label : string;
  is_type : AnyTypeDesc;
  default : value
}.

Record OutputSocket : Type := mkOutputSocket {
  os_label : string;
  os_type : AnyTypeDesc
}.

Abbreviation Record_ := (gmap string value).

(** The three functions are supplied by the author of the node type:
    each may throw or not return, and [evaluate] may return [undefined]
    ([None]) instead of a record, as the README's [MathNode] does for a
    configuration that is none of its operators. *)
Record NodeType : Type := mkNodeType {
  nt_typeId : string;
  nt_label : string;
  initialConfig : value;
  input : value -> outcome (Dict InputSocket);
  output : value -> outcome (Dict OutputSocket);
  evaluate : Record_ -> value -> outcome (option Record_)
}.

(** The caller-supplied registry; it may throw (the README's registry
    throws [No such node with type ...] for an unknown type id). *)
Definition Registry : Type := string -> outcome NodeType.

(** ** [buildEvalGraph]: the evaluation order ([graph.ts], lines 178-198) *)

(** [graph.find((e) => e.elementId == id)] *)
Definition findElement (graph : list NodeElement) (id : string) : option NodeElement :=
  List.find (fun e => bool_decide (elementId e = id)) graph.

(** [evalOrder.includes(top)].  [includes] compares object identities.
    Every element that reaches the stack was returned by [findElement],
    that is, it is the first element of [graph] carrying its id; two such
    elements are the same object exactly when their ids are equal. *)
Definition includes (evalOrder : list NodeElement) (top : NodeElement) : bool :=
  existsb (fun e => bool_decide (elementId e = elementId top)) evalOrder.

(** The [for (const socket in top.incoming)] loop; the head of the list
    is the top of the stack. *)
Definition pushDependencies (graph : list NodeElement) (top : NodeElement)
    (stack : list NodeElement) : list NodeElement :=
  fold_left
    (fun st '(_, inc) =>
       match findElement graph (inc_elementId inc) with
       | Some element => element :: st
       | None => st
       end)
    (incoming top) stack.

(** The [while ((top = stack.pop()) != null)] loop. *)
Fixpoint visit (fuel : nat) (graph stack evalOrder : list NodeElement) {struct fuel}
    : outcome (list NodeElement) :=
  match stack with
  | [] => Returned evalOrder
  | top :: stack' =>
    match fuel with
    | O => OutOfFuel
    | S fuel' =>
      if includes evalOrder top then visit fuel' graph stack' evalOrder
      else visit fuel' graph (pushDependencies graph top stack') (top :: evalOrder)
    end
  end.

(** A number of iterations that the loop never exceeds ([visit_terminates]). *)
Definition visitFuel (graph : list NodeElement) : nat :=
  S (sum_list_with (fun e => length (incoming e)) graph).

(** The [for (const elementId of targetIds)] loop. *)
Fixpoint buildEvalOrderFrom (graph : list NodeElement) (targetIds : list string)
    (evalOrder : list NodeElement) : outcome (list NodeElement) :=
  match targetIds with
  | [] => Returned evalOrder
  | id :: rest =>
    match findElement graph id with
    | None => Thrown ("Unable to find element with ID " +:+ id)
    | Some element =>
      obind (visit (visitFuel graph) graph [element] evalOrder)
            (buildEvalOrderFrom graph rest)
    end
  end.

Definition buildEvalOrder (graph : list NodeElement) (targetIds : list string)
    : outcome (list NodeElement) :=
  buildEvalOrderFrom graph targetIds [].

(** ** [buildEvalGraph]: the evaluator ([graph.ts], lines 200-223) *)

(** The [results] map; an entry holds what [evaluate] returned, a record
    or [undefined] ([None]). *)
Abbreviation Results := (gmap string (option (gmap string value))).

Definition bugMessage : string := "BUG! Failed to obtain result from previous element".

(** [result[name]] on a record returned by [evaluate]: the own field, else
    the member of [Object.prototype] of that name, else [undefined]. *)
Definition readField (result : Record_) (name : string) : value :=
  match result !! name with
  | Some v => v
  | None => if inheritedKey name then VObjectPrototype name else VUndefined
  end.

(** The value assigned to [input[socket]] by one iteration of the
    [for (const socket in inputDesc)] loop.  [element.incoming[socket]]
    is truthy for an own wiring and for an inherited member; an inherited
    member has no [elementId], and [results.get(undefined)] is
    [undefined].  [!result] holds for a missing entry and for a stored
    [undefined]. *)
Definition socketValue (results : Results) (element : NodeElement)
    (socket : string) (desc : InputSocket) : outcome value :=
  match readOwnOrInherited (incoming element) socket with
  | Own inc =>
    match results !! inc_elementId inc with
    | Some (Some result) => Returned (readField result (inc_socket inc))
    | _ => Thrown bugMessage
    end
  | Inherited => Thrown bugMessage
  | Absent => Returned (default desc)
  end.

(** [input[socket] = v] on the record that starts as [{}]: an own
    property, except for the name [__proto__], whose assignment goes to
    the prototype setter and adds no own property. *)
Definition assignInput (acc : Record_) (socket : string) (v : value) : Record_ :=
  if decide (socket = "__proto__") then acc else <[socket := v]> acc.

(** The [for (const socket in inputDesc)] loop. *)
Fixpoint resolveInputs (results : Results) (element : NodeElement)
    (inputDesc : Dict InputSocket) (acc : Record_) : outcome Record_ :=
  match inputDesc with
  | [] => Returned acc
  | (socket, desc) :: rest =>
    obind (socketValue results element socket desc) (fun v =>
    resolveInputs results element rest (assignInput acc socket v))
  end.

(** One invocation of [evaluate], recorded for the properties that count
    them: the element and the own properties of the input record. *)
Record Call : Type := mkCall {
  call_element : NodeElement;
  call_input : Record_
}.

(** The body of the [for (const element of evalOrder)] loop up to the
    call of [evaluate]: the node type and the input record. *)
Definition assembleInput (registry : Registry) (results : Results)
    (element : NodeElement) : outcome (NodeType * Record_) :=
  obind (registry (typeId element)) (fun type =>
  obind (input type (config element)) (fun inputDesc =>
  obind (resolveInputs results element inputDesc ∅) (fun inp =>
  Returned (type, inp)))).

(** The evaluator loop, with the log of the [evaluate] invocations made so far. *)
Fixpoint runOrder (registry : Registry) (evalOrder : list NodeElement)
    (results : Results) (calls : list Call) : outcome Results * list Call :=
  match evalOrder with
  | [] => (Returned results, calls)
  | element :: rest =>
    match assembleInput registry results element with
    | Returned (type, inp) =>
      match evaluate type inp (config element) with
      | Returned out =>
        runOrder registry rest (<[elementId element := out]> results)
                 (calls ++ [mkCall element inp])
      | Thrown msg => (Thrown msg, calls ++ [mkCall element inp])
      | OutOfFuel => (OutOfFuel, calls ++ [mkCall element inp])
      end
    | Thrown msg => (Thrown msg, calls)
    | OutOfFuel => (OutOfFuel, calls)
    end
  end.

Definition EvalGraph : Type := Registry -> outcome Results.

Definition evaluator (evalOrder : list NodeElement) : EvalGraph :=
  fun registry => fst (runOrder registry evalOrder ∅ []).

Definition evaluateCalls (evalOrder : list NodeElement) (registry : Registry) : list Call :=
  snd (runOrder registry evalOrder ∅ []).

Definition buildEvalGraph (graph : list NodeElement) (targetIds : list string)
    : outcome EvalGraph :=
  obind (buildEvalOrder graph targetIds) (fun evalOrder => Returned (evaluator evalOrder)).

(** ** Concrete graphs *)

Module Readme.
Definition ConstNode : NodeType :=
  mkNodeType "const" "Constant" (VNum 0)
    (fun _ => Returned [])
    (fun _ => Returned [("output", mkOutputSocket "Value" (TypeTag "number"))])
    (fun _ cfg => Returned (Some {[ "output" := cfg ]})).

(** The integers for which arithmetic on doubles is exact. *)
Definition safeInteger (n : Z) : bool := (Z.abs n <=? 2 ^ 53)%Z.

(** The number [n] when it is the exact result of an operation on doubles. *)
Definition exact (n : Z) : value := if safeInteger n then VNum n else VOther.

(** [a op b] for the fields [a] and [b] of the input record: tracked when
    both are integers and the exact result [f a b] exists and is a safe
    integer. *)
Definition arithmetic (f : Z -> Z -> option Z) (inp : Record_) : value :=
  match inp !! "a", inp !! "b" with
  | Some (VNum a), Some (VNum b) =>
    match f a b with
    | Some r => exact r
    | None => VOther
    end
  | _, _ => VOther
  end.

(** The quotient when the division of integers is exact. *)
Definition quotient (a b : Z) : option Z :=
  if decide (b <> 0 /\ a mod b = 0)%Z then Some (a / b)%Z else None.

(** The README's [MathNode].  The [switch] has no default: for a
    configuration that is none of the four operators [evaluate] returns
    [undefined]. *)
Definition MathNode : NodeType :=
  mkNodeType "math" "Math" (VStr "+")
    (fun _ => Returned [("a", mkInputSocket "A" (TypeTag "number") (VNum 0));
                        ("b", mkInputSocket "B" (TypeTag "number") (VNum 0))])
    (fun _ => Returned [("output", mkOutputSocket "Value" (TypeTag "number"))])
    (fun inp op =>
       match op with
       | VStr "+" => Returned (Some {[ "output" := arithmetic (fun a b => Some (a + b)%Z) inp ]})
       | VStr "-" => Returned (Some {[ "output" := arithmetic (fun a b => Some (a - b)%Z) inp ]})
       | VStr "*" => Returned (Some {[ "output" := arithmetic (fun a b => Some (a * b)%Z) inp ]})
       | VStr "/" => Returned (Some {[ "output" := arithmetic quotient inp ]})
       | _ => Returned None
       end).

Definition registry : Registry := fun typeId =>
  if decide (typeId = "const") then Returned ConstNode
  else if decide (typeId = "math") then Returned MathNode
  else Thrown ("No such node with type " +:+ typeId).

Definition graph : NodeGraph :=
  [ Node (mkNode "const/a" None 0%Z 0%Z 120%Z "const" (VNum 42) []);
    Node (mkNode "const/b" None 0%Z 32%Z 120%Z "const" (VNum 17) []);
    Node (mkNode "math/add" None 0%Z 16%Z 120%Z "math" (VStr "*")
            [("a", mkIncoming "const/a" "output"); ("b", mkIncoming "const/b" "output")]) ].
End Readme.

(** ** Structure of nested graphs *)

(** The node elements of a nested graph, in the order [flatten] meets them. *)
Fixpoint nodesOfElement (element : GraphElement) : list NodeElement :=
  match element with
  | Node n => [n]
  | Group _ sub => flat_map nodesOfElement sub
  | _ => []
  end.

Definition nodesOf (graph : list GraphElement) : list NodeElement :=
  flat_map nodesOfElement graph.

(** Induction over nested graphs. *)
Fixpoint GraphElement_nested_ind (P : GraphElement -> Prop)
    (Hframe : forall f, P (Frame f))
    (Hnode : forall n, P (Node n))
    (Hgroup : forall g sub, Forall P sub -> P (Group g sub))
    (Hin : forall gi, P (GroupInput gi))
    (Hout : forall go, P (GroupOutput go))
    (element : GraphElement) {struct element} : P element :=
  match element with
  | Frame f => Hframe f
  | Node n => Hnode n
  | Group g sub =>
    Hgroup g sub
      ((fix all (l : list GraphElement) : Forall P l :=
          match l with
          | [] => Stdlib.Lists.List.Forall_nil P
          | e :: r => @Stdlib.Lists.List.Forall_cons _ P e r (GraphElement_nested_ind P Hframe Hnode Hgroup Hin Hout e) (all r)
          end) sub)
  | GroupInput gi => Hin gi
  | GroupOutput go => Hout go
  end.

(** Two node elements that differ at most in the wiring of their sockets. *)
Definition sameFrame (o n : NodeElement) : Prop :=
  elementId o = elementId n /\ typeId o = typeId n /\ config o = config n /\
  label o = label n /\ x o = x n /\ y o = y n /\ width o = width n /\
  dict_keys (incoming o) = dict_keys (incoming n).

(** What the frame property asks of the recursive call on a group. *)
Definition nestedSameFrame (rec : GraphElement -> outcome (list NodeElement))
    (element : GraphElement) : Prop :=
  forall g sub out, element = Group g sub -> rec element = Returned out ->
    Forall2 sameFrame out (nodesOfElement element).

(** ** The rewriting pass, functionally *)

Definition follow (redirects : Redirects) (inc : Incoming) : Incoming :=
  match redirectOf redirects inc with
  | Some target => target
  | None => inc
  end.

Definition redirected (redirects : Redirects) (inc : Incoming) : bool :=
  match redirectOf redirects inc with
  | Some _ => true
  | None => false
  end.

Definition followEntries (redirects : Redirects) (entries : Dict Incoming) : Dict Incoming :=
  map (fun '(socket, inc) => (socket, follow redirects inc)) entries.

Definition anyRedirected (redirects : Redirects) (entries : Dict Incoming) : bool :=
  existsb (fun '(_, inc) => redirected redirects inc) entries.

Definition followElement (redirects : Redirects) (e : NodeElement) : NodeElement :=
  withIncoming e (followEntries redirects (incoming e)).

(** [settlesWithin redirects n inc]: following the redirects from [inc]
    leaves the table after at most [n] steps. *)
Fixpoint settlesWithin (redirects : Redirects) (n : nat) (inc : Incoming) : bool :=
  match redirectOf redirects inc with
  | None => true
  | Some target =>
    match n with
    | O => false
    | S n' => settlesWithin redirects n' target
    end
  end.

(** The reference reached from [inc] after at most [n] redirects. *)
Fixpoint resolve (redirects : Redirects) (n : nat) (inc : Incoming) : Incoming :=
  match n with
  | O => inc
  | S n' =>
    match redirectOf redirects inc with
    | None => inc
    | Some target => resolve redirects n' target
    end
  end.

Definition resolveElement (redirects : Redirects) (n : nat) (e : NodeElement) : NodeElement :=
  withIncoming e (map (fun '(socket, inc) => (socket, resolve redirects n inc)) (incoming e)).

Definition allSettleWithin (redirects : Redirects) (n : nat) (result : list NodeElement) : bool :=
  forallb (fun e => forallb (fun '(_, inc) => settlesWithin redirects n inc) (incoming e)) result.

(** A graph element other than a group. *)
Definition notGroup (element : GraphElement) : Prop :=
  match element with
  | Group _ _ => False
  | _ => True
  end.

(** ** Scenario graphs *)

Definition constNode (id : string) (n : Z) : NodeElement :=
  mkNode id None 0%Z 0%Z 120%Z "const" (VNum n) [].

(** Scenario B: a group wired straight through. *)
Module StraightThrough.
Definition group : GroupElement :=
  mkGroup "group" None 0%Z 0%Z 120%Z [("a", mkIncoming "producer" "output")].

Definition groupIn : GroupInputElement :=
  mkGroupInput "in" None 0%Z 0%Z 120%Z [mkGroupInputExport "a" None (TypeTag "number")].

Definition groupOut : GroupOutputElement :=
  mkGroupOutput "out" None 0%Z 0%Z 120%Z
    [mkGroupOutputExport "o" None (TypeTag "number") (mkIncoming "in" "a")].

Definition consumer (wire : Incoming) : NodeElement :=
  mkNode "consumer" (Some "Consumer") 3%Z 4%Z 120%Z "math" (VStr "+") [("a", wire)].

Definition graph : NodeGraph :=
  [ Node (constNode "producer" 7);
    Group group [GroupInput groupIn; GroupOutput groupOut];
    Node (consumer (mkIncoming "group" "o")) ].
End StraightThrough.

(** A group whose output is fed by the output of a group nested in it. *)
Module NestedOutput.
Definition innerGroup : GroupElement := mkGroup "inner" None 0%Z 0%Z 120%Z [].
Definition innerIn : GroupInputElement := mkGroupInput "inner/in" None 0%Z 0%Z 120%Z [].
Definition innerOut : GroupOutputElement :=
  mkGroupOutput "inner/out" None 0%Z 0%Z 120%Z
    [mkGroupOutputExport "o" None (TypeTag "number") (mkIncoming "source" "output")].

Definition inner : GraphElement :=
  Group innerGroup [GroupInput innerIn; GroupOutput innerOut; Node (constNode "source" 42)].

Definition outerGroup : GroupElement := mkGroup "outer" None 0%Z 0%Z 120%Z [].
Definition outerIn : GroupInputElement := mkGroupInput "outer/in" None 0%Z 0%Z 120%Z [].
Definition outerOut : GroupOutputElement :=
  mkGroupOutput "outer/out" None 0%Z 0%Z 120%Z
    [mkGroupOutputExport "out" None (TypeTag "number") (mkIncoming "inner" "o")].

Definition outer : GraphElement :=
  Group outerGroup [GroupInput outerIn; GroupOutput outerOut; inner].

Definition consumer (wire : Incoming) : NodeElement :=
  mkNode "consumer" None 0%Z 0%Z 120%Z "math" (VStr "+") [("a", wire)].

Definition graph : NodeGraph :=
  [ Node (consumer (mkIncoming "outer" "out")); outer ].
End NestedOutput.

(** Two targets sharing a dependency. *)
Module SharedDependency.
Definition wired (id typeId : string) (producer : string) : NodeElement :=
  mkNode id None 0%Z 0%Z 120%Z typeId (VStr "+") [("a", mkIncoming producer "output")].

Definition A : NodeElement := wired "A" "math" "C".
Definition B : NodeElement := wired "B" "math" "C".
Definition C : NodeElement := constNode "C" 42.

Definition graph : list NodeElement := [A; B; C].
Definition targetIds : list string := ["A"; "B"].

(** A registry that resolves every type id. *)
Definition registry : Registry := fun typeId =>
  if decide (typeId = "const") then Returned Readme.ConstNode else Returned Readme.MathNode.
End SharedDependency.

(** A node type that declares an input socket under the name of a member
    of [Object.prototype], and an element of that type without wiring. *)
Module InheritedSocket.
Definition descriptor : InputSocket :=
  mkInputSocket "Constructor" (TypeTag "number") (VNum 0).

Definition type : NodeType :=
  mkNodeType "labelled" "Labelled" VNull
    (fun _ => Returned [("constructor", descriptor)])
    (fun _ => Returned [("output", mkOutputSocket "Value" (TypeTag "number"))])
    (fun inp _ => Returned (Some inp)).

Definition element : NodeElement := mkNode "n" None 0%Z 0%Z 120%Z "labelled" VNull [].
Definition graph : list NodeElement := [element].
Definition targetIds : list string := ["n"].
Definition registry : Registry := fun _ => Returned type.
End InheritedSocket.

(** A consumer that names a field of the record of a constant. *)
Module FieldLookup.
(** [evaluate: ({ a }) => ({ output: a })] *)
Definition Forward : NodeType :=
  mkNodeType "forward" "Forward" VNull
    (fun _ => Returned [("a", mkInputSocket "A" (TypeTag "number") (VNum 0))])
    (fun _ => Returned [("output", mkOutputSocket "Value" (TypeTag "number"))])
    (fun inp _ =>
       Returned (Some {[ "output" := match inp !! "a" with Some v => v | None => VUndefined end ]})).

Definition C : NodeElement := constNode "C" 42.

Definition reading (field : string) : NodeElement :=
  mkNode "A" None 0%Z 0%Z 120%Z "forward" VNull [("a", mkIncoming "C" field)].

Definition missing : NodeElement := reading "result".
Definition inherited : NodeElement := reading "toString".

Definition registry : Registry := fun typeId =>
  if decide (typeId = "const") then Returned Readme.ConstNode else Returned Forward.
End FieldLookup.

(** A chain [A -> B -> C -> D] whose last element has an unregistered type. *)
Module UnknownType.
Definition A : NodeElement := SharedDependency.wired "A" "math" "B".
Definition B : NodeElement := SharedDependency.wired "B" "math" "C".
Definition C : NodeElement := SharedDependency.wired "C" "math" "D".
Definition D : NodeElement := mkNode "D" None 0%Z 0%Z 120%Z "noise" VNull [].

Definition graph : list NodeElement := [A; B; C; D].
Definition targetIds : list string := ["A"; "B"].
End UnknownType.

(** ** Properties of evaluation orders *)

Definition ids (elements : list NodeElement) : list string := map elementId elements.

(** An element of the graph as [graph.find] returns it. *)
Definition found (graph : list NodeElement) (e : NodeElement) : Prop :=
  findElement graph (elementId e) = Some e.

(** [reaches graph e e']: [e'] is [e] or one of its direct or indirect
    dependencies that are present in the graph. *)
Inductive reaches (graph : list NodeElement) : NodeElement -> NodeElement -> Prop :=
| reaches_refl e : reaches graph e e
| reaches_step e socket inc e1 e' :
    In (socket, inc) (incoming e) ->
    findElement graph (inc_elementId inc) = Some e1 ->
    reaches graph e1 e' ->
    reaches graph e e'.

(** Every dependency named by the element at position [i] is at a
    position before [i] or absent from the graph. *)
Definition topologicallyOrdered (graph evalOrder : list NodeElement) : Prop :=
  forall i e socket inc,
    evalOrder !! i = Some e ->
    In (socket, inc) (incoming e) ->
    (exists j e', j < i /\ evalOrder !! j = Some e' /\ elementId e' = inc_elementId inc) \/
    findElement graph (inc_elementId inc) = None.

(** The work left for the [while] loop: the wirings of the elements not yet in the order. *)
Definition weight (evalOrder : list NodeElement) (e : NodeElement) : nat :=
  if includes evalOrder e then 0 else length (incoming e).

Definition pending (graph evalOrder : list NodeElement) : nat :=
  sum_list_with (weight evalOrder) graph.

Definition countId (id : string) (l : list string) : nat :=
  length (List.filter (fun i => bool_decide (i = id)) l).

(** The number of invocations of [evaluate] made for the element [id]. *)
Definition evaluations (id : string) (calls : list Call) : nat :=
  countId id (map (fun c => elementId (call_element c)) calls).

(** Every dependency of an element of the order that is present in the
    graph is in the order or still on the stack. *)
Definition closedUpTo (graph stack evalOrder : list NodeElement) : Prop :=
  forall e socket inc e',
    In e evalOrder -> In (socket, inc) (incoming e) ->
    findElement graph (inc_elementId inc) = Some e' ->
    In e' evalOrder \/ In e' stack.

(** The invariant of the [while] loop of the order builder. *)
Record orderInvariant (graph stack evalOrder : list NodeElement) : Prop := mkOrderInvariant {
  inv_stack : Forall (found graph) stack;
  inv_order : Forall (found graph) evalOrder;
  inv_nodup : NoDup (ids evalOrder);
  inv_closed : closedUpTo graph stack evalOrder
}.

(** The deduplication property as the specification words it, for one
    graph, target list and registry: when the element ids are unique and
    the targets present, an element reachable from two distinct requested
    targets is once in the order and [evaluate] is invoked once for it in
    the evaluation run. *)
Definition evaluatedExactlyOnce (graph : list NodeElement) (targetIds : list string)
    (registry : Registry) : Prop :=
  NoDup (map elementId graph) ->
  Forall (fun id => is_Some (findElement graph id)) targetIds ->
  forall t1 t2 e1 e2 e evalOrder,
    In t1 targetIds -> In t2 targetIds -> t1 <> t2 ->
    findElement graph t1 = Some e1 -> findElement graph t2 = Some e2 ->
    reaches graph e1 e -> reaches graph e2 e ->
    buildEvalOrder graph targetIds = Returned evalOrder ->
    countId (elementId e) (ids evalOrder) = 1 /\
    evaluations (elementId e) (evaluateCalls evalOrder registry) = 1.

(** ** Further notions for the order builder and the evaluator *)

(** An element that some requested target reaches. *)
Definition reachableFromTargets (graph : list NodeElement) (targetIds : list string)
    (e : NodeElement) : Prop :=
  exists t et, In t targetIds /\ findElement graph t = Some et /\ reaches graph et e.

(** The producers the evaluator reads for an element: the wirings of the
    input sockets that its node type declares. *)
Definition declaredWirings (registry : Registry) (e : NodeElement) : list Incoming :=
  match registry (typeId e) with
  | Returned type =>
    match input type (config e) with
    | Returned inputDesc => omap (fun '(socket, _) => dict_get (incoming e) socket) inputDesc
    | _ => []
    end
  | _ => []
  end.

(** An element for which the callbacks of the evaluator return: the
    registry resolves its type, [input(config)] returns the socket
    descriptors, no declared socket that the element leaves without
    wiring carries the name of a member of [Object.prototype], and
    [evaluate] returns a record for every input record. *)
Definition evaluable (registry : Registry) (e : NodeElement) : Prop :=
  exists type inputDesc,
    registry (typeId e) = Returned type /\
    input type (config e) = Returned inputDesc /\
    (forall socket, In socket (dict_keys inputDesc) ->
                    dict_get (incoming e) socket = None -> inheritedKey socket = false) /\
    (forall inp, exists out, evaluate type inp (config e) = Returned (Some out)).

(** C10 as the specification words it, for the evaluator built for
    [graph] and [targetIds] and its run with [registry]: when a declared
    input socket of an element is wired to a producer that is in the
    evaluation order and whose output record has no field of the
    referenced name, [evaluate] receives [undefined] for the socket. *)
Definition missingFieldGivesUndefined (graph : list NodeElement) (targetIds : list string)
    (registry : Registry) : Prop :=
  forall evalOrder results call type inputDesc socket desc inc producer out,
    buildEvalOrder graph targetIds = Returned evalOrder ->
    evaluator evalOrder registry = Returned results ->
    In call (evaluateCalls evalOrder registry) ->
    registry (typeId (call_element call)) = Returned type ->
    input type (config (call_element call)) = Returned inputDesc ->
    In (socket, desc) inputDesc ->
    dict_get (incoming (call_element call)) socket = Some inc ->
    In producer evalOrder ->
    elementId producer = inc_elementId inc ->
    results !! inc_elementId inc = Some (Some out) ->
    out !! inc_socket inc = None ->
    call_input call !! socket = Some VUndefined.

(** Every producer read for an element of the order is evaluated before it. *)
Definition producersEarlier (registry : Registry) (evalOrder : list NodeElement) : Prop :=
  forall before e after inc,
    evalOrder = before ++ e :: after ->
    In inc (declaredWirings registry e) ->
    In (inc_elementId inc) (ids before).

(** A flat graph with a dependency cycle. *)
Module Cycle.
Definition A : NodeElement := SharedDependency.wired "A" "math" "B".
Definition B : NodeElement := SharedDependency.wired "B" "math" "A".
Definition graph : list NodeElement := [A; B].
End Cycle.

(** The result map and the input record of the multiplication in the README run. *)
Definition readmeResults : Results :=
  {[ "const/a" := Some {[ "output" := VNum 42 ]};
     "const/b" := Some {[ "output" := VNum 17 ]};
     "math/add" := Some {[ "output" := VNum 714 ]} ]}.

Definition readmeMathCall : Call :=
  mkCall (mkNode "math/add" None 0%Z 16%Z 120%Z "math" (VStr "*")
            [("a", mkIncoming "const/a" "output"); ("b", mkIncoming "const/b" "output")])
         {[ "a" := VNum 42; "b" := VNum 17 ]}.

(** ** Further notions for [flatten] *)

(** [containsGroup graph g sub]: the group [g] with subgraph [sub] is an
    element of [graph] or of the subgraph of a group nested in it. *)
Inductive containsGroup : list GraphElement -> GroupElement -> list GraphElement -> Prop :=
| containsGroup_here graph g sub :
    In (Group g sub) graph -> containsGroup graph g sub
| containsGroup_nested graph g' sub' g sub :
    In (Group g' sub') graph -> containsGroup sub' g sub -> containsGroup graph g sub.

Definition structuralError (g : GroupElement) : string :=
  "Group " +:+ group_elementId g +:+ " must have input and output".

(** What the error property asks of the recursive call on a group. *)
Definition nestedErrors (rec : GraphElement -> outcome (list NodeElement))
    (element : GraphElement) : Prop :=
  forall g sub msg, element = Group g sub -> rec element = Thrown msg ->
    exists g0 sub0,
      containsGroup sub g0 sub0 /\
      (findGroupInput sub0 = None \/ findGroupOutput sub0 = None) /\
      msg = structuralError g0.

(** A frame next to a group without output marker, inside a well-formed group. *)
Module Malformed.
Definition broken : GraphElement :=
  Group (mkGroup "broken" None 0%Z 0%Z 120%Z [])
    [GroupInput (mkGroupInput "broken/in" None 0%Z 0%Z 120%Z [])].

Definition graph : NodeGraph :=
  [ Frame (mkFrame "frame" None ["source"]);
    Node (constNode "source" 1);
    Group (mkGroup "outer" None 0%Z 0%Z 120%Z [])
      [ GroupInput (mkGroupInput "outer/in" None 0%Z 0%Z 120%Z []);
        GroupOutput (mkGroupOutput "outer/out" None 0%Z 0%Z 120%Z []);
        broken ] ].
End Malformed.

(** ** The redirect table of a graph with several groups *)

(** The redirect keys that the loop of [flatten] sets for one element of
    the graph. *)
Definition registeredKeys (element : GraphElement) : list string :=
  match element with
  | Group g sub =>
    match findGroupInput sub, findGroupOutput sub with
    | Some groupIn, Some groupOut =>
      map (fun e => redirectKey (gin_elementId groupIn) (gie_id e)) (gin_exports groupIn) ++
      map (fun e => redirectKey (group_elementId g) (goe_id e)) (gout_exports groupOut)
    | _, _ => []
    end
  | _ => []
  end.

(** The redirect table with which the [for (const element of graph.graph)]
    loop ends when it started with [redirects]: every group registers
    its exports in the one table of the call, a later group over an
    earlier one. *)
Fixpoint registerGroups (elements : list GraphElement) (redirects : Redirects) : Redirects :=
  match elements with
  | [] => redirects
  | Group g sub :: rest =>
    match findGroupInput sub, findGroupOutput sub with
    | Some groupIn, Some groupOut =>
      registerGroups rest (registerOutputs g groupOut (registerInputs g groupIn redirects))
    | _, _ => registerGroups rest redirects
    end
  | _ :: rest => registerGroups rest redirects
  end.

(** The reference that [k] rounds of rewriting put in the place of [inc]. *)
Fixpoint followChain (redirects : Redirects) (k : nat) (inc : Incoming) : Incoming :=
  match k with
  | O => inc
  | S k' => followChain redirects k' (follow redirects inc)
  end.

(** The element after [k] rounds of rewriting. *)
Fixpoint followRounds (redirects : Redirects) (k : nat) (e : NodeElement) : NodeElement :=
  match k with
  | O => e
  | S k' => followRounds redirects k' (followElement redirects e)
  end.

(** The group wires each of its input exports, or leaves unwired only
    exports whose id is not the name of a member of [Object.prototype]. *)
Definition plainInputExports (g : GroupElement) (groupIn : GroupInputElement) : bool :=
  forallb (fun e => match dict_get (group_incoming g) (gie_id e) with
                    | Some _ => true
                    | None => negb (inheritedKey (gie_id e))
                    end)
          (gin_exports groupIn).

(** The nested graphs on which [registerInputs] stores what the code
    stores: every group, at every depth, has plain input exports. *)
Fixpoint plainExports (element : GraphElement) : bool :=
  match element with
  | Group g sub =>
    match findGroupInput sub with
    | Some groupIn => plainInputExports g groupIn
    | None => true
    end && forallb plainExports sub
  | _ => true
  end.

(** C4 as the specification words it, for one graph: whenever the graph
    contains a group with one input and one output wired straight
    through, [flatten] returns the node elements only, and in its output
    every consumer of the graph that was wired to the group's output
    refers to the outside producer. *)
Definition straightThroughClaim (graph : NodeGraph) : Prop :=
  forall pre post sub g groupIn groupOut a o la lo ta to producer,
    graph = pre ++ Group g sub :: post ->
    findGroupInput sub = Some groupIn ->
    findGroupOutput sub = Some groupOut ->
    gin_exports groupIn = [mkGroupInputExport a la ta] ->
    gout_exports groupOut
    = [mkGroupOutputExport o lo to (mkIncoming (gin_elementId groupIn) a)] ->
    dict_get (group_incoming g) a = Some producer ->
    exists fuel out,
      flatten fuel graph = Returned out /\
      Forall2 sameFrame out (nodesOf graph) /\
      forall n socket,
        In (Node n) graph ->
        dict_get (incoming n) socket = Some (mkIncoming (group_elementId g) o) ->
        exists n', In n' out /\ sameFrame n' n /\
                   dict_get (incoming n') socket = Some producer.

(** Two sibling groups wired straight through, each with its own
    producer, whose [group-input] markers carry the same id [in] (the
    markers belong to different subgraphs) and export the same id. *)
Module SiblingClash.
Definition groupIn : GroupInputElement :=
  mkGroupInput "in" None 0%Z 0%Z 120%Z [mkGroupInputExport "a" None (TypeTag "number")].

Definition groupOut : GroupOutputElement :=
  mkGroupOutput "out" None 0%Z 0%Z 120%Z
    [mkGroupOutputExport "o" None (TypeTag "number") (mkIncoming "in" "a")].

Definition group (id producer : string) : GraphElement :=
  Group (mkGroup id None 0%Z 0%Z 120%Z [("a", mkIncoming producer "output")])
        [GroupInput groupIn; GroupOutput groupOut].

Definition consumer (wire : Incoming) : NodeElement :=
  mkNode "consumer" None 0%Z 0%Z 120%Z "math" (VStr "+") [("a", wire)].

Definition graph : NodeGraph :=
  [ Node (constNode "p1" 1); Node (constNode "p2" 2);
    group "g1" "p1"; group "g2" "p2";
    Node (consumer (mkIncoming "g1" "o")) ].
End SiblingClash.

(** Some wiring of some element of [result] satisfies [P]. *)
Definition someWiring (P : Incoming -> Prop) (result : list NodeElement) : Prop :=
  exists e socket inc, In e result /\ In (socket, inc) (incoming e) /\ P inc.

(** A group whose only output export is fed by that very output socket. *)
Module SelfFed.
Definition group : GroupElement := mkGroup "loop" None 0%Z 0%Z 120%Z [].
Definition groupIn : GroupInputElement := mkGroupInput "loop/in" None 0%Z 0%Z 120%Z [].
Definition groupOut : GroupOutputElement :=
  mkGroupOutput "loop/out" None 0%Z 0%Z 120%Z
    [mkGroupOutputExport "o" None (TypeTag "number") (mkIncoming "loop" "o")].
Definition consumer : NodeElement :=
  mkNode "consumer" None 0%Z 0%Z 120%Z "math" (VStr "+") [("a", mkIncoming "loop" "o")].
End SelfFed.

(** A node in a group nested in a group, fed from outside through the
    inputs of both groups. *)
Module NestedInput.
Definition innerGroup : GroupElement :=
  mkGroup "inner" None 0%Z 0%Z 120%Z [("a", mkIncoming "outer/in" "b")].
Definition innerIn : GroupInputElement :=
  mkGroupInput "inner/in" None 0%Z 0%Z 120%Z [mkGroupInputExport "a" None (TypeTag "number")].
Definition innerOut : GroupOutputElement := mkGroupOutput "inner/out" None 0%Z 0%Z 120%Z [].
Definition consumer (wire : Incoming) : NodeElement :=
  mkNode "consumer" None 0%Z 0%Z 120%Z "math" (VStr "+") [("a", wire)].
Definition innerSub : list GraphElement :=
  [GroupInput innerIn; GroupOutput innerOut; Node (consumer (mkIncoming "inner/in" "a"))].

Definition outerGroup : GroupElement :=
  mkGroup "outer" None 0%Z 0%Z 120%Z [("b", mkIncoming "producer" "output")].
Definition outerIn : GroupInputElement :=
  mkGroupInput "outer/in" None 0%Z 0%Z 120%Z [mkGroupInputExport "b" None (TypeTag "number")].
Definition outerOut : GroupOutputElement := mkGroupOutput "outer/out" None 0%Z 0%Z 120%Z [].
End NestedInput.

(** ** [calculate] ([geometry.ts], lines 58-101) *)

(** Coordinates are JavaScript numbers; as for the layout fields of the
    elements they are integers here.  The sums and differences of
    [unite] and the product of [socketsHeight] are exact on integers,
    which the code's doubles are only up to 2^53: no property below
    relies on this arithmetic. *)
Record Geometry : Type := mkGeometry {
  geo_x : number;
  geo_y : number;
  geo_width : number;
  geo_height : number
}.

(** [e.elementId], a field of every variant. *)
Definition elementIdOf (element : GraphElement) : string :=
  match element with
  | Frame f => frame_elementId f
  | Node n => elementId n
  | Group g _ => group_elementId g
  | GroupInput gi => gin_elementId gi
  | GroupOutput go => gout_elementId go
  end.

(** The bounding box that the [reduce] callback builds from [acc] and [g]. *)
Definition unite (acc g : Geometry) : Geometry :=
  let x := Z.min (geo_x acc) (geo_x g) in
  let y := Z.min (geo_y acc) (geo_y g) in
  mkGeometry x y
    (Z.max (geo_x acc + geo_width acc) (geo_x g + geo_width g) - x)%Z
    (Z.max (geo_y acc + geo_height acc) (geo_y g + geo_height g) - y)%Z.

Definition zeroGeometry : Geometry := mkGeometry 0%Z 0%Z 0%Z 0%Z.

(** [childrenIds.includes(id)] *)
Definition includesId (childrenIds : list string) (id : string) : bool :=
  existsb (fun child => bool_decide (child = id)) childrenIds.

(** [graph.graph.filter((e) => element.childrenIds.includes(e.elementId))] *)
Definition frameChildren (graph : NodeGraph) (childrenIds : list string) : list GraphElement :=
  List.filter (fun e => includesId childrenIds (elementIdOf e)) graph.

Section CalculateBody.
(** The recursive call [calculate(graph, e, socketHeight, registry)]. *)
Variable calculateChild : GraphElement -> outcome Geometry.

(** [reduce] over the children of a frame, from the initial value [null]. *)
Fixpoint reduceChildren (children : list GraphElement) (acc : option Geometry)
    : outcome (option Geometry) :=
  match children with
  | [] => Returned acc
  | e :: rest =>
    obind (calculateChild e) (fun g =>
    reduceChildren rest (Some (match acc with
                               | None => g
                               | Some box => unite box g
                               end)))
  end.
End CalculateBody.

Definition socketsHeight (inputs outputs : nat) (socketHeight : number) : number :=
  (Z.of_nat (inputs + outputs) * socketHeight)%Z.

(** The error of the engine when the call stack is exhausted. *)
Definition rangeError : string := "Maximum call stack size exceeded".

(** [fuel] is the depth of call stack available to the recursion through
    nested frames; a call that needs more throws the [RangeError]. *)
Fixpoint calculate (fuel : nat) (graph : NodeGraph) (element : GraphElement)
    (socketHeight : number) (registry : Registry) {struct fuel} : outcome Geometry :=
  match fuel with
  | O => Thrown rangeError
  | S fuel' =>
    match element with
    | Node n =>
      obind (registry (typeId n)) (fun type =>
      obind (input type (config n)) (fun inputDesc =>
      obind (output type (config n)) (fun outputDesc =>
      let inputs := length inputDesc in
      let outputs := length outputDesc in
      Returned (mkGeometry (x n) (y n) (width n)
                           (socketsHeight inputs outputs socketHeight)))))
    | Group g sub =>
      let inputs := match findGroupInput sub with
                    | Some groupIn => length (gin_exports groupIn)
                    | None => 0
                    end in
      let outputs := match findGroupOutput sub with
                     | Some groupOut => length (gout_exports groupOut)
                     | None => 0
                     end in
      Returned (mkGeometry (group_x g) (group_y g) (group_width g)
                           (socketsHeight inputs outputs socketHeight))
    | Frame f =>
      obind (reduceChildren (fun e => calculate fuel' graph e socketHeight registry)
                            (frameChildren graph (childrenIds f)) None)
            (fun box => Returned (match box with
                                  | Some geometry => geometry
                                  | None => zeroGeometry
                                  end))
    | GroupInput _ => Thrown "Unable to calculate geometry for group-input"
    | GroupOutput _ => Thrown "Unable to calculate geometry for group-output"
    end
  end.

(** The README graph with a frame around the two constants. *)
Module Framed.
Definition frame : FrameElement := mkFrame "frame" (Some "Constants") ["const/b"; "const/a"].
Definition graph : NodeGraph := Frame frame :: Readme.graph.
End Framed.

(** ** Graphs on which the order builder yields a topological order *)

(** The elements of the graph that the wirings of [e] name, in socket order. *)
Definition dependencies (graph : list NodeElement) (e : NodeElement) : list NodeElement :=
  omap (fun '(_, inc) => findElement graph (inc_elementId inc)) (incoming e).

(** No element of the graph feeds two sockets, of one element or of two. *)
Definition forest (graph : list NodeElement) : Prop :=
  (forall e, found graph e -> NoDup (ids (dependencies graph e))) /\
  (forall e1 e2 d,
      found graph e1 -> found graph e2 ->
      In d (dependencies graph e1) -> In d (dependencies graph e2) -> e1 = e2).

(** An element that feeds no socket. *)
Definition isRoot (graph : list NodeElement) (d : NodeElement) : Prop :=
  forall e, found graph e -> ~ In d (dependencies graph e).

Definition targetsAreRoots (graph : list NodeElement) (targetIds : list string) : Prop :=
  forall t et, In t targetIds -> findElement graph t = Some et -> isRoot graph et.

(** The invariant of the order builder on a forest. *)
Record forestInvariant (graph stack evalOrder : list NodeElement) : Prop := mkForestInvariant {
  fi_stack : Forall (found graph) stack;
  fi_order : Forall (found graph) evalOrder;
  fi_nodup : NoDup stack;
  fi_fresh : forall d, In d stack -> ~ In d evalOrder;
  fi_before : forall l1 e l2 d,
      evalOrder = l1 ++ e :: l2 -> In d (dependencies graph e) -> In d stack \/ In d l1;
  fi_parent : forall d,
      In d stack \/ In d evalOrder ->
      isRoot graph d \/ exists p, In p evalOrder /\ In d (dependencies graph p)
}.

(** Scenario A of the README: 42 * 17. *)
Example readme_result :
  obind (flatten 1 Readme.graph) (fun flat =>
  obind (buildEvalGraph flat ["math/add"]) (fun ev =>
  obind (ev Readme.registry) (fun results =>
  Returned (match results !! "math/add" with
            | Some (Some result) => result !! "output"
            | _ => None
            end))))
  = Returned (Some (VNum 714)).
Proof. vm_compute. reflexivity. Qed.

Lemma sameFrame_refl n : sameFrame n n.
Proof. repeat split. Qed.

Lemma sameFrame_trans a b c : sameFrame a b -> sameFrame b c -> sameFrame a c.
Proof. unfold sameFrame. intuition congruence. Qed.

Lemma Forall2_sameFrame_refl l : Forall2 sameFrame l l.
Proof. induction l; constructor; auto using sameFrame_refl. Qed.

Lemma Forall2_sameFrame_trans l1 l2 l3 :
  Forall2 sameFrame l1 l2 -> Forall2 sameFrame l2 l3 -> Forall2 sameFrame l1 l3.
Proof.
  intros H12. revert l3. induction H12; intros l3 H23; inversion H23; subst; constructor;
    eauto using sameFrame_trans.
Qed.

Lemma withIncoming_same e : withIncoming e (incoming e) = e.
Proof. destruct e; reflexivity. Qed.

Lemma rewriteIncoming_spec redirects entries changed :
  rewriteIncoming redirects entries changed =
  (followEntries redirects entries, changed || anyRedirected redirects entries).
Proof.
  revert changed. induction entries as [|[socket inc] rest IH]; intros changed; simpl.
  - by rewrite orb_false_r.
  - unfold follow, redirected. destruct (redirectOf redirects inc); rewrite IH; simpl.
    + by rewrite orb_true_r.
    + reflexivity.
Qed.

Lemma followEntries_id redirects entries :
  anyRedirected redirects entries = false -> followEntries redirects entries = entries.
Proof.
  induction entries as [|[socket inc] rest IH]; simpl; [done|].
  unfold redirected, follow. destruct (redirectOf redirects inc); simpl; [done|].
  intros H. by rewrite IH.
Qed.

Lemma dict_keys_followEntries redirects entries :
  dict_keys (followEntries redirects entries) = dict_keys entries.
Proof.
  unfold dict_keys, followEntries. rewrite map_map. apply map_ext. by intros [? ?].
Qed.

Lemma rewriteElement_spec redirects e changed :
  rewriteElement redirects e changed =
  (followElement redirects e, changed || anyRedirected redirects (incoming e)).
Proof.
  unfold rewriteElement. rewrite rewriteIncoming_spec.
  destruct (changed || anyRedirected redirects (incoming e)) eqn:E; [done|].
  apply orb_false_elim in E as [_ E]. unfold followElement.
  by rewrite (followEntries_id _ _ E), withIncoming_same.
Qed.

Lemma rewritePass_spec redirects result changed :
  rewritePass redirects result changed =
  (map (followElement redirects) result,
   changed || existsb (fun e => anyRedirected redirects (incoming e)) result).
Proof.
  revert changed. induction result as [|e rest IH]; intros changed; simpl.
  - by rewrite orb_false_r.
  - rewrite rewriteElement_spec, IH. by rewrite orb_assoc.
Qed.

Lemma followElement_sameFrame redirects e : sameFrame (followElement redirects e) e.
Proof. repeat split; simpl. apply dict_keys_followEntries. Qed.

Lemma rewriteLoop_sameFrame fuel redirects result out :
  rewriteLoop fuel redirects result = Returned out -> Forall2 sameFrame out result.
Proof.
  revert result. induction fuel as [|fuel IH]; intros result; simpl; [done|].
  rewrite rewritePass_spec. simpl.
  assert (Hstep : Forall2 sameFrame (map (followElement redirects) result) result).
  { induction result; simpl; constructor; auto using followElement_sameFrame. }
  destruct (existsb _ result).
  - intros H. apply IH in H. eauto using Forall2_sameFrame_trans.
  - intros [= <-]. done.
Qed.

(** ** [flatten] only rewrites wiring *)

Lemma collect_sameFrame rec elements :
  Forall (nestedSameFrame rec) elements ->
  forall flattened redirects flattened' redirects',
    collect rec elements flattened redirects = Returned (flattened', redirects') ->
    exists added, flattened' = flattened ++ added /\
                  Forall2 sameFrame added (nodesOf elements).
Proof.
  induction 1 as [|el rest Hel _ IH]; intros fl rd fl' rd'; simpl.
  - intros [= <- <-]. exists []. by rewrite app_nil_r.
  - destruct el as [f|n|g sub|gi|go]; try (by apply IH).
    + intros H. apply IH in H as (added & -> & Hadded).
      exists (n :: added). rewrite <- app_assoc. split; [done|].
      constructor; auto using sameFrame_refl.
    + destruct (findGroupInput sub); [|done]. destruct (findGroupOutput sub); [|done].
      destruct (rec (Group g sub)) as [inner| |] eqn:Erec; [|done|done].
      intros H. apply IH in H as (added & -> & Hadded).
      exists (inner ++ added). rewrite <- app_assoc. split; [done|].
      unfold nodesOf. simpl. apply Forall2_app; [|done]. by apply (Hel g sub).
Qed.

Lemma flattenBody_sameFrame rec fuel graph out :
  Forall (nestedSameFrame rec) graph ->
  flattenBody rec fuel graph = Returned out ->
  Forall2 sameFrame out (nodesOf graph).
Proof.
  intros Hrec. unfold flattenBody.
  destruct (collect rec graph [] ∅) as [[fl rd]| |] eqn:E; simpl; [|done|done].
  apply (collect_sameFrame _ _ Hrec) in E as (added & -> & Hadded). simpl.
  intros H. apply rewriteLoop_sameFrame in H. eauto using Forall2_sameFrame_trans.
Qed.

Lemma flattenGroup_sameFrame fuel element : nestedSameFrame (flattenGroup fuel) element.
Proof.
  induction element as [f|n|g sub IH|gi|go] using GraphElement_nested_ind;
    intros g' sub' out; try discriminate.
  intros [= <- <-]. simpl. apply flattenBody_sameFrame. exact IH.
Qed.

(** C9. Flattening only rewrites wiring: the output of [flatten] lists the
    node elements of the input graph and of its nested subgraphs, each
    with [elementId], [typeId], [config], [label], [x], [y] and [width]
    unchanged and with an [incoming] map over the same socket keys. *)
Theorem flatten_only_rewrites_wiring fuel (graph : NodeGraph) out :
  flatten fuel graph = Returned out ->
  Forall2 sameFrame out (nodesOf graph).
Proof.
  apply flattenBody_sameFrame.
  apply Forall_forall. intros el _. apply flattenGroup_sameFrame.
Qed.

Lemma flatten_only_rewrites_wiring_witness :
  flatten 3 StraightThrough.graph
  = Returned [constNode "producer" 7;
              StraightThrough.consumer (mkIncoming "producer" "output")] /\
  Forall2 sameFrame
    [constNode "producer" 7; StraightThrough.consumer (mkIncoming "producer" "output")]
    (nodesOf StraightThrough.graph).
Proof.
  split; [vm_compute; reflexivity|].
  apply (flatten_only_rewrites_wiring 3). vm_compute. reflexivity.
Defined.

(** ** [flatten] on flat graphs *)

Lemma collect_nodes rec nodes flattened redirects :
  collect rec (map Node nodes) flattened redirects = Returned (flattened ++ nodes, redirects).
Proof.
  revert flattened. induction nodes as [|n rest IH]; intros fl; simpl.
  - by rewrite app_nil_r.
  - rewrite IH. by rewrite <- app_assoc.
Qed.

Lemma redirectOf_empty inc : redirectOf ∅ inc = None.
Proof. unfold redirectOf. by rewrite lookup_empty. Qed.

Lemma anyRedirected_empty entries : anyRedirected ∅ entries = false.
Proof.
  induction entries as [|[s inc] rest IH]; simpl; [done|].
  unfold redirected. by rewrite redirectOf_empty.
Qed.

Lemma noneRedirected_empty result :
  existsb (fun e => anyRedirected ∅ (incoming e)) result = false.
Proof.
  induction result as [|n rest IH]; simpl; [done|]. by rewrite anyRedirected_empty.
Qed.

Lemma rewriteLoop_settled fuel redirects result :
  existsb (fun e => anyRedirected redirects (incoming e)) result = false ->
  rewriteLoop (S fuel) redirects result = Returned result.
Proof.
  intros H. simpl. rewrite rewritePass_spec, H. simpl. f_equal.
  induction result as [|e rest IH]; simpl in *; [done|].
  apply orb_false_elim in H as [He Hrest].
  unfold followElement at 1. rewrite (followEntries_id _ _ He), withIncoming_same.
  f_equal. by apply IH.
Qed.

Lemma flatten_nodes fuel nodes : flatten (S fuel) (map Node nodes) = Returned nodes.
Proof.
  unfold flatten, flattenBody. rewrite collect_nodes. simpl obind. cbv beta iota.
  apply rewriteLoop_settled, noneRedirected_empty.
Qed.

(** C6. [flatten] is idempotent: a graph made of node elements only is
    returned unchanged, and flattening the output of a [flatten] call
    returns that output unchanged. *)
Theorem flatten_idempotent :
  (forall fuel nodes, flatten (S fuel) (map Node nodes) = Returned nodes) /\
  (forall fuel fuel' graph out,
      flatten fuel graph = Returned out ->
      flatten (S fuel') (map Node out) = Returned out).
Proof.
  split.
  - apply flatten_nodes.
  - intros fuel fuel' graph out _. apply flatten_nodes.
Qed.

Lemma flatten_idempotent_witness :
  flatten 3 StraightThrough.graph
  = Returned [constNode "producer" 7;
              StraightThrough.consumer (mkIncoming "producer" "output")] /\
  flatten 1 (map Node [constNode "producer" 7;
                       StraightThrough.consumer (mkIncoming "producer" "output")])
  = Returned [constNode "producer" 7;
              StraightThrough.consumer (mkIncoming "producer" "output")].
Proof.
  assert (H : flatten 3 StraightThrough.graph
              = Returned [constNode "producer" 7;
                          StraightThrough.consumer (mkIncoming "producer" "output")])
    by (vm_compute; reflexivity).
  split; [exact H|].
  exact (proj2 flatten_idempotent 3 0 StraightThrough.graph _ H).
Defined.

(** ** Chains of redirects of bounded length *)

Lemma settlesWithin_0 redirects inc :
  settlesWithin redirects 0 inc = negb (redirected redirects inc).
Proof. unfold redirected. simpl. by destruct (redirectOf redirects inc). Qed.

Lemma settlesWithin_follow redirects n inc :
  settlesWithin redirects (S n) inc = true ->
  settlesWithin redirects n (follow redirects inc) = true.
Proof.
  unfold follow. simpl. destruct (redirectOf redirects inc) eqn:E; [done|].
  intros _. destruct n; simpl; by rewrite E.
Qed.

Lemma resolve_follow redirects n inc :
  resolve redirects n (follow redirects inc) = resolve redirects (S n) inc.
Proof.
  unfold follow. simpl. destruct (redirectOf redirects inc) eqn:E; [done|].
  destruct n; simpl; by rewrite ?E.
Qed.

Lemma resolve_unredirected redirects n inc :
  redirected redirects inc = false -> resolve redirects n inc = inc.
Proof.
  unfold redirected. destruct n; simpl; [done|]. by destruct (redirectOf redirects inc).
Qed.

Lemma resolveElement_unredirected redirects n e :
  anyRedirected redirects (incoming e) = false -> resolveElement redirects n e = e.
Proof.
  intros H. unfold resolveElement. rewrite <- (withIncoming_same e) at 3. f_equal.
  induction (incoming e) as [|[s inc] rest IH]; simpl in *; [done|].
  apply orb_false_elim in H as [H1 H2]. by rewrite resolve_unredirected, IH.
Qed.

Lemma resolveElement_follow redirects n e :
  resolveElement redirects n (followElement redirects e) = resolveElement redirects (S n) e.
Proof.
  unfold resolveElement, followElement, followEntries, withIncoming. simpl. f_equal.
  rewrite map_map. apply map_ext. intros [s inc]. by rewrite resolve_follow.
Qed.

Lemma allSettleWithin_0 redirects result :
  allSettleWithin redirects 0 result = true ->
  existsb (fun e => anyRedirected redirects (incoming e)) result = false.
Proof.
  unfold allSettleWithin. induction result as [|e rest IH]; [done|]. cbn [forallb existsb].
  intros [He Hrest]%andb_prop. rewrite (IH Hrest), orb_false_r. clear IH Hrest.
  induction (incoming e) as [|[s inc] r IH]; [done|].
  cbn [forallb] in He. apply andb_prop in He as [H1 H2]. rewrite settlesWithin_0 in H1.
  apply negb_true_iff in H1. cbn [anyRedirected existsb]. rewrite H1. by apply IH.
Qed.

Lemma allSettleWithin_follow redirects n result :
  allSettleWithin redirects (S n) result = true ->
  allSettleWithin redirects n (map (followElement redirects) result) = true.
Proof.
  induction result as [|e rest IH]; [done|].
  intros [He Hrest]%andb_prop. change (map ?f (e :: rest)) with (f e :: map f rest).
  unfold allSettleWithin in *. cbn [forallb]. rewrite (IH Hrest), andb_true_r. clear IH Hrest.
  simpl. induction (incoming e) as [|[s inc] r IH]; [done|].
  cbn [forallb] in He. apply andb_prop in He as [H1 H2].
  cbn [followEntries map forallb]. fold (followEntries redirects r).
  by rewrite (settlesWithin_follow _ _ _ H1), IH.
Qed.

(** When every chain of redirects ends within [n] steps, [n + 1] rounds
    are enough and every reference is replaced by the end of its chain. *)
Lemma rewriteLoop_resolves redirects n :
  forall result fuel,
    allSettleWithin redirects n result = true -> n < fuel ->
    rewriteLoop fuel redirects result = Returned (map (resolveElement redirects n) result).
Proof.
  induction n as [|n IH]; intros result fuel Hall Hfuel.
  - destruct fuel as [|fuel]; [lia|].
    pose proof (allSettleWithin_0 _ _ Hall) as Hnone.
    rewrite (rewriteLoop_settled _ _ _ Hnone). f_equal.
    clear Hall. induction result as [|e rest IHr]; simpl in *; [done|].
    apply orb_false_elim in Hnone as [He Hrest].
    by rewrite resolveElement_unredirected, <- IHr.
  - destruct fuel as [|fuel]; [lia|]. simpl. rewrite rewritePass_spec. simpl.
    destruct (existsb _ result) eqn:Echanged.
    + rewrite IH; [|by apply allSettleWithin_follow|lia].
      f_equal. rewrite map_map. apply map_ext. intros e. apply resolveElement_follow.
    + f_equal. clear Hall. induction result as [|e rest IHr]; simpl in *; [done|].
      apply orb_false_elim in Echanged as [He Hrest].
      rewrite (resolveElement_unredirected _ _ _ He), <- (IHr Hrest).
      unfold followElement. by rewrite (followEntries_id _ _ He), withIncoming_same.
Qed.

(** ** Scenario B: a group wired straight through *)

Lemma collect_notGroup rec elements :
  Forall notGroup elements ->
  forall flattened redirects,
    collect rec elements flattened redirects = Returned (flattened ++ nodesOf elements, redirects).
Proof.
  induction 1 as [|el rest Hel _ IH]; intros fl rd; simpl.
  - by rewrite app_nil_r.
  - destruct el as [f|n|g sub|gi|go]; simpl in Hel; try done; rewrite IH; try done.
    unfold nodesOf. simpl. by rewrite <- app_assoc.
Qed.

Lemma dict_get_map {A B : Type} (f : A -> B) (d : Dict A) k :
  dict_get (map (fun '(s, v) => (s, f v)) d) k = f <$> dict_get d k.
Proof.
  induction d as [|[s v] rest IH]; simpl; [done|]. by destruct (decide (s = k)).
Qed.

Lemma dict_get_In {V : Type} (d : Dict V) k v : dict_get d k = Some v -> In (k, v) d.
Proof.
  induction d as [|[k' v'] rest IH]; simpl; [done|].
  case_decide as Hk; [intros [= <-]; left; by subst|]. intros H. right. auto.
Qed.

Lemma nodesOf_app graph1 graph2 : nodesOf (graph1 ++ graph2) = nodesOf graph1 ++ nodesOf graph2.
Proof. apply flat_map_app. Qed.

Lemma collect_single_group rec pre post sub g groupIn groupOut inner :
  Forall notGroup pre -> Forall notGroup post ->
  findGroupInput sub = Some groupIn -> findGroupOutput sub = Some groupOut ->
  rec (Group g sub) = Returned inner ->
  forall flattened redirects,
    collect rec (pre ++ Group g sub :: post) flattened redirects
    = Returned (flattened ++ nodesOf pre ++ inner ++ nodesOf post,
                registerOutputs g groupOut (registerInputs g groupIn redirects)).
Proof.
  intros Hpre Hpost Hin Hout Hrec.
  induction Hpre as [|el rest Hel _ IH]; intros fl rd.
  - simpl. rewrite Hin, Hout, Hrec. rewrite (collect_notGroup _ _ Hpost).
    by rewrite <- app_assoc.
  - destruct el as [f|n|g' sub'|gi|go]; simpl in Hel; try done;
      simpl; rewrite IH; unfold nodesOf; simpl; try done.
    by rewrite <- app_assoc.
Qed.

Section StraightThroughGroup.
Variables (pre post sub : list GraphElement) (g : GroupElement).
Variables (groupIn : GroupInputElement) (groupOut : GroupOutputElement).
Variables (a o : string) (la lo : option string) (ta to : AnyTypeDesc).
Variable producer : Incoming.

Let boundaryIn : Incoming := mkIncoming (gin_elementId groupIn) a.
Let keyOut : string := redirectKey (group_elementId g) o.
Let keyIn : string := redirectKey (gin_elementId groupIn) a.
Let keyProducer : string := redirectKey (inc_elementId producer) (inc_socket producer).

Hypothesis Hpre : Forall notGroup pre.
Hypothesis Hpost : Forall notGroup post.
Hypothesis Hsub : Forall notGroup sub.
Hypothesis HgroupIn : findGroupInput sub = Some groupIn.
Hypothesis HgroupOut : findGroupOutput sub = Some groupOut.
Hypothesis Hinputs : gin_exports groupIn = [mkGroupInputExport a la ta].
Hypothesis Houtputs : gout_exports groupOut = [mkGroupOutputExport o lo to boundaryIn].
Hypothesis Hwired : dict_get (group_incoming g) a = Some producer.
Hypothesis Hkeys : keyOut <> keyIn.
Hypothesis HproducerOut : keyProducer <> keyOut.
Hypothesis HproducerIn : keyProducer <> keyIn.

Let table : Redirects := <[keyOut := Some boundaryIn]> (<[keyIn := Some producer]> ∅).

Local Lemma table_registered :
  registerOutputs g groupOut (registerInputs g groupIn ∅) = table.
Proof using Hinputs Houtputs Hwired.
  unfold registerOutputs, registerInputs. rewrite Hinputs, Houtputs. simpl.
  by rewrite Hwired.
Qed.

Local Lemma redirectOf_table inc :
  redirectOf table inc =
    if decide (redirectKey (inc_elementId inc) (inc_socket inc) = keyOut) then Some boundaryIn
    else if decide (redirectKey (inc_elementId inc) (inc_socket inc) = keyIn) then Some producer
    else None.
Proof.
  unfold redirectOf, table.
  destruct (decide (_ = keyOut)) as [->|Hne1]; [by rewrite lookup_insert_eq|].
  rewrite lookup_insert_ne by done.
  destruct (decide (_ = keyIn)) as [->|Hne2]; [by rewrite lookup_insert_eq|].
  rewrite lookup_insert_ne by done. by rewrite lookup_empty.
Qed.

Local Lemma redirectOf_producer : redirectOf table producer = None.
Proof using HproducerOut HproducerIn.
  rewrite redirectOf_table. fold keyProducer. by repeat case_decide.
Qed.

Local Lemma redirectOf_boundaryIn : redirectOf table boundaryIn = Some producer.
Proof using Hkeys.
  rewrite redirectOf_table. simpl. fold keyIn. by repeat case_decide.
Qed.

Local Lemma table_settles inc : settlesWithin table 2 inc = true.
Proof using Hkeys HproducerOut HproducerIn.
  simpl. rewrite (redirectOf_table inc). repeat case_decide.
  - by rewrite redirectOf_boundaryIn, redirectOf_producer.
  - by rewrite redirectOf_producer.
  - done.
Qed.

Local Lemma table_resolve_output :
  resolve table 2 (mkIncoming (group_elementId g) o) = producer.
Proof using Hkeys HproducerOut HproducerIn.
  simpl. rewrite redirectOf_table. simpl. fold keyOut. rewrite decide_True by done.
  by rewrite redirectOf_boundaryIn.
Qed.

(** When the straight-through group is the only group of the graph,
    three rounds are enough. *)
Lemma flatten_straight_through_alone fuel :
  3 <= fuel ->
  exists out,
    flatten fuel (pre ++ Group g sub :: post) = Returned out /\
    Forall2
      (fun n' n =>
         sameFrame n' n /\
         forall socket,
           dict_get (incoming n) socket = Some (mkIncoming (group_elementId g) o) ->
           dict_get (incoming n') socket = Some producer)
      out (nodesOf (pre ++ Group g sub :: post)).
Proof using All.
  intros Hfuel.
  exists (map (resolveElement table 2) (nodesOf (pre ++ Group g sub :: post))). split.
  - unfold flatten, flattenBody.
    pose proof (collect_single_group) as Hcollect.
    specialize (Hcollect (flattenGroup fuel) pre post sub g groupIn groupOut (nodesOf sub)
                         Hpre Hpost HgroupIn HgroupOut).
    rewrite Hcollect.
    + simpl obind. cbv beta iota. rewrite table_registered.
      rewrite nodesOf_app. change (nodesOf (Group g sub :: post)) with (nodesOf sub ++ nodesOf post).
      apply rewriteLoop_resolves; [|lia].
      unfold allSettleWithin. apply forallb_forall. intros e _.
      apply forallb_forall. intros [s inc] _. apply table_settles.
    + simpl. unfold flattenBody. rewrite (collect_notGroup _ _ Hsub). simpl obind.
      cbv beta iota. destruct fuel as [|fuel']; [lia|].
      apply rewriteLoop_settled, noneRedirected_empty.
  - induction (nodesOf (pre ++ Group g sub :: post)) as [|n rest IH]; simpl;
      constructor; [|exact IH].
    split.
    + repeat split; simpl. unfold dict_keys. rewrite map_map. apply map_ext. by intros [? ?].
    + intros socket Hsocket. unfold resolveElement. cbn [incoming withIncoming].
      rewrite dict_get_map, Hsocket. exact (f_equal Some table_resolve_output).
Qed.
End StraightThroughGroup.

(** ** The order builder terminates *)

Lemma findElement_found graph id e : findElement graph id = Some e -> elementId e = id.
Proof.
  unfold findElement. intros H. apply find_some in H as [_ H].
  by apply bool_decide_eq_true in H.
Qed.

Lemma findElement_In graph id e : findElement graph id = Some e -> In e graph.
Proof. unfold findElement. intros H. by apply find_some in H as [H _]. Qed.

Lemma findElement_is_found graph id e : findElement graph id = Some e -> found graph e.
Proof. intros H. unfold found. by rewrite (findElement_found _ _ _ H). Qed.

Lemma includes_true evalOrder top :
  includes evalOrder top = true <-> In (elementId top) (ids evalOrder).
Proof.
  unfold includes, ids. rewrite existsb_exists, in_map_iff. split.
  - intros (e & He & Heq). apply bool_decide_eq_true in Heq. eauto.
  - intros (e & Heq & He). exists e. split; [done|]. by apply bool_decide_eq_true.
Qed.

Lemma includes_false evalOrder top :
  includes evalOrder top = false <-> ~ In (elementId top) (ids evalOrder).
Proof. rewrite <- includes_true. by destruct (includes evalOrder top). Qed.

Lemma pushDependencies_length graph top stack :
  length (pushDependencies graph top stack) <= length stack + length (incoming top).
Proof.
  unfold pushDependencies. revert stack.
  induction (incoming top) as [|[s inc] rest IH]; intros stack; simpl; [lia|].
  destruct (findElement graph (inc_elementId inc)) as [element|].
  - specialize (IH (element :: stack)). simpl in IH. lia.
  - specialize (IH stack). lia.
Qed.

Lemma pushDependencies_In graph top stack e :
  In e (pushDependencies graph top stack) <->
  In e stack \/
  exists socket inc, In (socket, inc) (incoming top) /\
                     findElement graph (inc_elementId inc) = Some e.
Proof.
  unfold pushDependencies. revert stack.
  induction (incoming top) as [|[s inc] rest IH]; intros stack; simpl.
  - split; [auto|]. intros [H|(? & ? & [] & _)]; done.
  - rewrite IH. clear IH. split.
    + intros [H|(s' & inc' & Hin & Hfind)].
      * destruct (findElement graph (inc_elementId inc)) eqn:E; [|auto].
        destruct H as [<-|H]; [|auto]. right. exists s, inc. auto.
      * right. exists s', inc'. auto.
    + intros [H|(s' & inc' & [[= <- <-]|Hin] & Hfind)].
      * left. destruct (findElement graph (inc_elementId inc)); simpl; auto.
      * left. rewrite Hfind. by left.
      * right. eauto.
Qed.

Lemma weight_cons_le top evalOrder e : weight (top :: evalOrder) e <= weight evalOrder e.
Proof.
  unfold weight, includes. cbn [existsb].
  destruct (bool_decide (elementId top = elementId e)); cbn [orb]; [lia|].
  destruct (existsb _ evalOrder); lia.
Qed.

Lemma weight_top top evalOrder : weight (top :: evalOrder) top = 0.
Proof. unfold weight, includes. cbn [existsb]. by rewrite bool_decide_eq_true_2. Qed.

Lemma pending_cons_le graph top evalOrder :
  pending graph (top :: evalOrder) <= pending graph evalOrder.
Proof.
  unfold pending. induction graph as [|e rest IH]; cbn [sum_list_with]; [lia|].
  pose proof (weight_cons_le top evalOrder e). lia.
Qed.

Lemma pending_visit graph top evalOrder :
  In top graph -> includes evalOrder top = false ->
  pending graph (top :: evalOrder) + length (incoming top) <= pending graph evalOrder.
Proof.
  intros Hin Hnew. induction graph as [|e rest IH]; [done|].
  unfold pending in *. cbn [sum_list_with]. destruct Hin as [->|Hin].
  - pose proof (pending_cons_le rest top evalOrder) as Hle. unfold pending in Hle.
    rewrite weight_top. unfold weight at 2. rewrite Hnew. lia.
  - specialize (IH Hin). pose proof (weight_cons_le top evalOrder e). lia.
Qed.

Lemma pending_le_total graph evalOrder :
  pending graph evalOrder <= sum_list_with (fun e => length (incoming e)) graph.
Proof.
  unfold pending. induction graph as [|e rest IH]; cbn [sum_list_with]; [lia|].
  unfold weight at 1. destruct (includes evalOrder e); lia.
Qed.

(** The [while] loop returns whenever its fuel covers the stack and the pending wirings. *)
Lemma visit_terminates graph fuel :
  forall stack evalOrder,
    Forall (fun e => In e graph) stack ->
    length stack + pending graph evalOrder <= fuel ->
    exists out, visit fuel graph stack evalOrder = Returned out.
Proof.
  induction fuel as [|fuel IH]; intros stack evalOrder Hstack Hfuel.
  - destruct stack; simpl in *; [eauto|lia].
  - destruct stack as [|top stack']; simpl; [eauto|].
    apply Forall_cons in Hstack as [Htop Hstack]. simpl in Hfuel.
    destruct (includes evalOrder top) eqn:Einc.
    + apply IH; [done|lia].
    + apply IH.
      * apply Forall_forall. intros e He. apply list_elem_of_In in He.
        apply pushDependencies_In in He as [He|(s & inc & _ & Hfind)].
        -- rewrite Forall_forall in Hstack. apply Hstack. by apply list_elem_of_In.
        -- eauto using findElement_In.
      * pose proof (pushDependencies_length graph top stack').
        pose proof (pending_visit graph top evalOrder Htop Einc). lia.
Qed.

Lemma visit_from_target graph element evalOrder :
  In element graph ->
  exists out, visit (visitFuel graph) graph [element] evalOrder = Returned out.
Proof.
  intros Hin. apply visit_terminates; [by constructor|].
  pose proof (pending_le_total graph evalOrder). unfold visitFuel. simpl. lia.
Qed.

(** The fuel given to the [while] loop by [buildEvalOrderFrom] is never exhausted. *)
Lemma buildEvalOrderFrom_total graph targetIds :
  forall evalOrder, buildEvalOrderFrom graph targetIds evalOrder <> OutOfFuel.
Proof.
  induction targetIds as [|id rest IH]; intros evalOrder; cbn [buildEvalOrderFrom]; [done|].
  destruct (findElement graph id) as [element|] eqn:Hid; [|done].
  destruct (visit_from_target graph element evalOrder) as [out ->];
    [eauto using findElement_In|].
  cbn [obind]. apply IH.
Qed.

(** ** Missing targets *)

Lemma buildEvalOrderFrom_missing graph pre missing post :
  Forall (fun id => is_Some (findElement graph id)) pre ->
  findElement graph missing = None ->
  forall evalOrder,
    buildEvalOrderFrom graph (pre ++ missing :: post) evalOrder
    = Thrown ("Unable to find element with ID " +:+ missing).
Proof.
  intros Hpre Hmissing.
  induction Hpre as [|id rest [element Hid] _ IH]; intros evalOrder; cbn [app buildEvalOrderFrom].
  - by rewrite Hmissing.
  - rewrite Hid.
    destruct (visit_from_target graph element evalOrder) as [out ->];
      [eauto using findElement_In|].
    cbn [obind]. apply IH.
Qed.

(** C7. When some id of [targetIds] is the [elementId] of no element of
    the flat graph, [buildEvalGraph] throws the lookup error that names
    the first such id in the order of [targetIds]; no evaluator (hence no
    result map) is returned. *)
Theorem buildEvalGraph_missing_target graph pre missing post :
  Forall (fun id => is_Some (findElement graph id)) pre ->
  findElement graph missing = None ->
  buildEvalGraph graph (pre ++ missing :: post)
  = Thrown ("Unable to find element with ID " +:+ missing).
Proof.
  intros Hpre Hmissing. unfold buildEvalGraph, buildEvalOrder.
  by rewrite (buildEvalOrderFrom_missing _ _ _ _ Hpre Hmissing).
Qed.

Lemma buildEvalGraph_missing_target_witness :
  buildEvalGraph SharedDependency.graph (["A"; "C"] ++ "Z" :: ["B"; "Y"])
  = Thrown "Unable to find element with ID Z".
Proof.
  apply (buildEvalGraph_missing_target SharedDependency.graph ["A"; "C"] "Z" ["B"; "Y"]).
  - repeat constructor; vm_compute; eauto.
  - reflexivity.
Defined.

(** ** The order builder visits every reachable element once *)

Lemma found_unique graph e e' :
  found graph e -> found graph e' -> elementId e = elementId e' -> e = e'.
Proof. unfold found. intros H H' Heq. rewrite Heq in H. congruence. Qed.

Lemma includes_In graph evalOrder top :
  found graph top -> Forall (found graph) evalOrder ->
  includes evalOrder top = true -> In top evalOrder.
Proof.
  intros Htop Horder Hinc. apply includes_true in Hinc.
  unfold ids in Hinc. apply in_map_iff in Hinc as (e & Heq & He).
  rewrite Forall_forall in Horder.
  assert (e = top) as <-; [|done].
  apply (found_unique graph); auto. apply Horder. by apply list_elem_of_In.
Qed.

Lemma visit_invariant graph fuel :
  forall stack evalOrder out,
    orderInvariant graph stack evalOrder ->
    visit fuel graph stack evalOrder = Returned out ->
    orderInvariant graph [] out /\
    (forall e, In e evalOrder \/ In e stack -> In e out).
Proof.
  induction fuel as [|fuel IH]; intros stack evalOrder out [Hstack Horder Hnodup Hclosed].
  - destruct stack; simpl; [|done]. intros [= <-]. split; [done|]. intros e [H|[]]. done.
  - destruct stack as [|top stack']; simpl.
    { intros [= <-]. split; [done|]. intros e [H|[]]. done. }
    apply Forall_cons in Hstack as [Htop Hstack].
    destruct (includes evalOrder top) eqn:Einc; intros Hvisit.
    + pose proof (includes_In _ _ _ Htop Horder Einc) as Hin.
      apply IH in Hvisit as [Hinv Hmono].
      * split; [done|]. intros e [He|[<-|He]]; auto.
      * split; try done. intros e s inc e' He Hs Hfind.
        destruct (Hclosed e s inc e' He Hs Hfind) as [H|[<-|H]]; auto.
    + apply IH in Hvisit as [Hinv Hmono].
      * split; [done|]. intros e [He|[<-|He]]; apply Hmono.
        -- left. by right.
        -- left. by left.
        -- right. apply pushDependencies_In. by left.
      * split.
        -- apply Forall_forall. intros e He. apply list_elem_of_In in He.
           apply pushDependencies_In in He as [He|(s & inc & _ & Hfind)].
           ++ rewrite Forall_forall in Hstack. apply Hstack. by apply list_elem_of_In.
           ++ eauto using findElement_is_found.
        -- by constructor.
        -- unfold ids. simpl. constructor; [|done].
           rewrite list_elem_of_In. by apply includes_false.
        -- intros e s inc e' [<-|He] Hs Hfind.
           ++ right. apply pushDependencies_In. right. eauto.
           ++ destruct (Hclosed e s inc e' He Hs Hfind) as [H|[<-|H]].
              ** left. by right.
              ** left. by left.
              ** right. apply pushDependencies_In. by left.
Qed.

Lemma buildEvalOrderFrom_invariant graph targetIds :
  forall evalOrder out,
    orderInvariant graph [] evalOrder ->
    buildEvalOrderFrom graph targetIds evalOrder = Returned out ->
    orderInvariant graph [] out /\
    (forall e, In e evalOrder -> In e out) /\
    (forall id e, In id targetIds -> findElement graph id = Some e -> In e out).
Proof.
  induction targetIds as [|id rest IH]; intros evalOrder out Hinv; cbn [buildEvalOrderFrom].
  - intros [= <-]. split; [done|]. split; [done|]. intros id e [].
  - destruct (findElement graph id) as [element|] eqn:Hid; [|done].
    destruct (visit (visitFuel graph) graph [element] evalOrder) as [mid| |] eqn:Hvisit;
      cbn [obind]; [|done|done].
    intros Hrest. apply visit_invariant in Hvisit as [Hmid Hmono].
    + apply IH in Hrest as (Hout & Hmono' & Htargets); [|done].
      split; [done|]. split.
      * intros e He. apply Hmono'. apply Hmono. by left.
      * intros id' e [<-|Hin] Hfind; [|eauto].
        apply Hmono'. apply Hmono. right. left. congruence.
    + destruct Hinv as [_ Horder Hnodup Hclosed]. split; try done.
      * constructor; [|done]. eauto using findElement_is_found.
      * intros e s inc e' He Hs Hfind.
        destruct (Hclosed e s inc e' He Hs Hfind) as [H|[]]. by left.
Qed.

Lemma buildEvalOrderFrom_returns graph targetIds :
  Forall (fun id => is_Some (findElement graph id)) targetIds ->
  forall evalOrder, exists out, buildEvalOrderFrom graph targetIds evalOrder = Returned out.
Proof.
  induction 1 as [|id rest [element Hid] _ IH]; intros evalOrder; cbn [buildEvalOrderFrom].
  - eauto.
  - rewrite Hid.
    destruct (visit_from_target graph element evalOrder) as [mid ->];
      [eauto using findElement_In|].
    cbn [obind]. apply IH.
Qed.

Lemma closed_reaches graph out e e' :
  orderInvariant graph [] out -> reaches graph e e' -> In e out -> In e' out.
Proof.
  intros [_ _ _ Hclosed]. induction 1 as [e|e s inc e1 e' Hs Hfind _ IH]; [done|].
  intros He. apply IH. by destruct (Hclosed e s inc e1 He Hs Hfind) as [H|[]].
Qed.

Lemma orderInvariant_nil graph : orderInvariant graph [] [].
Proof. split; try done. - constructor. - intros e s inc e' []. Qed.

(** ** Counting evaluations *)

Lemma countId_app id l1 l2 : countId id (l1 ++ l2) = countId id l1 + countId id l2.
Proof. unfold countId. by rewrite List.filter_app, length_app. Qed.

Lemma countId_absent id l : ~ In id l -> countId id l = 0.
Proof.
  unfold countId. induction l as [|i rest IH]; simpl; [done|].
  intros Hnot. destruct (bool_decide_reflect (i = id)) as [->|Hne].
  - exfalso. apply Hnot. by left.
  - apply IH. intros H. apply Hnot. by right.
Qed.

Lemma countId_NoDup id l : NoDup l -> In id l -> countId id l = 1.
Proof.
  unfold countId. induction 1 as [|i rest Hnotin Hnodup IH]; simpl; [done|].
  rewrite list_elem_of_In in Hnotin.
  intros [->|Hin].
  - rewrite bool_decide_eq_true_2 by done. simpl.
    f_equal. by apply (countId_absent id rest).
  - rewrite bool_decide_eq_false_2; [by apply IH|]. intros ->. done.
Qed.

Lemma runOrder_calls registry evalOrder :
  forall results calls outc calls',
    runOrder registry evalOrder results calls = (outc, calls') ->
    exists processed rest,
      evalOrder = processed ++ rest /\
      map call_element calls' = map call_element calls ++ processed /\
      (forall r, outc = Returned r -> rest = []).
Proof.
  induction evalOrder as [|element rest IH]; intros results calls outc calls'; simpl.
  - intros [= <- <-]. exists [], []. split; [done|]. split; [by rewrite app_nil_r|done].
  - destruct (assembleInput registry results element) as [[type inp]| |].
    + destruct (evaluate type inp (config element)) as [out| |].
      * intros H. apply IH in H as (processed & rest' & -> & Hcalls & Hdone).
        exists (element :: processed), rest'. split; [done|]. split; [|done].
        rewrite Hcalls, map_app. simpl. by rewrite <- app_assoc.
      * intros [= <- <-]. exists [element], rest.
        split; [done|]. split; [by rewrite map_app|done].
      * intros [= <- <-]. exists [element], rest.
        split; [done|]. split; [by rewrite map_app|done].
    + intros [= <- <-]. exists [], (element :: rest).
      split; [done|]. split; [by rewrite app_nil_r|done].
    + intros [= <- <-]. exists [], (element :: rest).
      split; [done|]. split; [by rewrite app_nil_r|done].
Qed.

(** C5 (amended). An element reachable from two distinct requested
    targets appears exactly once in the evaluation order; in every
    evaluation run [evaluate] is invoked at most once for it, and exactly
    once when the run returns a result map.  (Uniqueness of the element
    ids of the graph is not needed: only elements returned by
    [graph.find] are visited.) *)
Theorem shared_element_evaluated_once graph targetIds t1 t2 e1 e2 e :
  Forall (fun id => is_Some (findElement graph id)) targetIds ->
  In t1 targetIds -> In t2 targetIds -> t1 <> t2 ->
  findElement graph t1 = Some e1 -> findElement graph t2 = Some e2 ->
  reaches graph e1 e -> reaches graph e2 e ->
  exists evalOrder,
    buildEvalOrder graph targetIds = Returned evalOrder /\
    In e evalOrder /\
    countId (elementId e) (ids evalOrder) = 1 /\
    forall registry,
      evaluations (elementId e) (evaluateCalls evalOrder registry) <= 1 /\
      (forall results,
          evaluator evalOrder registry = Returned results ->
          evaluations (elementId e) (evaluateCalls evalOrder registry) = 1).
Proof.
  intros Hpresent Ht1 _ _ He1 _ Hreach _.
  destruct (buildEvalOrderFrom_returns graph targetIds Hpresent []) as [out Hout].
  exists out. split; [exact Hout|].
  destruct (buildEvalOrderFrom_invariant graph targetIds [] out (orderInvariant_nil graph) Hout)
    as (Hinv & _ & Htargets).
  assert (Hin : In e out) by eauto using closed_reaches.
  assert (Hcount : countId (elementId e) (ids out) = 1).
  { apply countId_NoDup; [by destruct Hinv|]. unfold ids. by apply in_map. }
  split; [done|]. split; [done|].
  intros registry. unfold evaluations, evaluateCalls, evaluator.
  destruct (runOrder registry out ∅ []) as [outc calls'] eqn:Hrun.
  apply runOrder_calls in Hrun as (processed & rest & -> & Hcalls & Hdone).
  simpl in Hcalls. cbn [fst snd].
  replace (map (fun c => elementId (call_element c)) calls') with (ids processed)
    by (unfold ids; by rewrite <- Hcalls, map_map).
  unfold ids in Hcount. rewrite map_app, countId_app in Hcount. unfold ids.
  split; [lia|].
  intros results ->. rewrite (Hdone results eq_refl) in Hcount. simpl in Hcount.
  unfold countId in Hcount at 2. simpl in Hcount. lia.
Qed.

Lemma shared_element_evaluated_once_witness :
  exists evalOrder,
    buildEvalOrder UnknownType.graph UnknownType.targetIds = Returned evalOrder /\
    In UnknownType.C evalOrder /\
    countId "C" (ids evalOrder) = 1 /\
    forall registry,
      evaluations "C" (evaluateCalls evalOrder registry) <= 1 /\
      (forall results,
          evaluator evalOrder registry = Returned results ->
          evaluations "C" (evaluateCalls evalOrder registry) = 1).
Proof.
  apply (shared_element_evaluated_once UnknownType.graph UnknownType.targetIds
           "A" "B" UnknownType.A UnknownType.B UnknownType.C).
  - repeat constructor; vm_compute; eauto.
  - simpl. auto.
  - simpl. auto.
  - discriminate.
  - reflexivity.
  - reflexivity.
  - eapply reaches_step; [by left|reflexivity|].
    eapply reaches_step; [by left|reflexivity|]. apply reaches_refl.
  - eapply reaches_step; [by left|reflexivity|]. apply reaches_refl.
Defined.

(** C5, as the specification words it, fails: on the chain
    [A -> B -> C -> D] with targets [A] and [B], the element [C] is
    reachable from both targets, but the README's registry throws on the
    type of [D], which is evaluated first, and the run ends before
    [evaluate] is invoked for [C]. *)
Lemma shared_element_not_evaluated :
  ~ evaluatedExactlyOnce UnknownType.graph UnknownType.targetIds Readme.registry.
Proof.
  intros H.
  destruct (H ltac:(repeat constructor; rewrite list_elem_of_In; simpl; intuition discriminate)
              ltac:(repeat constructor; vm_compute; eauto)
              "A" "B" UnknownType.A UnknownType.B UnknownType.C
              [UnknownType.D; UnknownType.C; UnknownType.B; UnknownType.A]) as [_ Hcalls].
  - simpl. auto.
  - simpl. auto.
  - discriminate.
  - reflexivity.
  - reflexivity.
  - eapply reaches_step; [by left|reflexivity|].
    eapply reaches_step; [by left|reflexivity|]. apply reaches_refl.
  - eapply reaches_step; [by left|reflexivity|]. apply reaches_refl.
  - vm_compute. reflexivity.
  - vm_compute in Hcalls. discriminate.
Qed.

(** ** The order is not topological *)

(** C1 (violated by the code). With the flat graph [A; B; C], where [A]
    and [B] are both wired to [C], and the targets [A] and [B], the order
    built is [B; C; A]: [B], at position 0, names [C], which is present
    in the graph and sits at position 1. *)
Theorem shared_dependency_order_not_topological :
  NoDup (ids SharedDependency.graph) /\
  Forall (fun id => is_Some (findElement SharedDependency.graph id)) SharedDependency.targetIds /\
  buildEvalOrder SharedDependency.graph SharedDependency.targetIds
  = Returned [SharedDependency.B; SharedDependency.C; SharedDependency.A] /\
  ~ topologicallyOrdered SharedDependency.graph
      [SharedDependency.B; SharedDependency.C; SharedDependency.A].
Proof.
  split; [|split; [|split]].
  - unfold ids. simpl. repeat constructor; rewrite list_elem_of_In; simpl; intuition discriminate.
  - repeat constructor; vm_compute; eauto.
  - vm_compute. reflexivity.
  - intros H.
    destruct (H 0 SharedDependency.B "a" (mkIncoming "C" "output") eq_refl (or_introl eq_refl))
      as [(j & e' & Hj & _)|Hnone]; [lia|].
    vm_compute in Hnone. discriminate.
Qed.

(** C2 (violated by the code). On the same graph and targets, with a
    registry that resolves every type id, the evaluator processes [B]
    first, finds no result for its producer [C], which is present in the
    graph, and throws the invariant-violation error. *)
Theorem shared_dependency_reaches_bug_branch :
  (forall typeId, exists type, SharedDependency.registry typeId = Returned type) /\
  findElement SharedDependency.graph "C" = Some SharedDependency.C /\
  obind (buildEvalGraph SharedDependency.graph SharedDependency.targetIds)
        (fun evalGraph => evalGraph SharedDependency.registry)
  = Thrown "BUG! Failed to obtain result from previous element".
Proof.
  split; [|split].
  - intros typeId. unfold SharedDependency.registry. case_decide; eauto.
  - reflexivity.
  - vm_compute. reflexivity.
Qed.

(** ** Redirects through nested groups *)

(** C3 (violated by the code). The consumer is wired to the output [out]
    of the group [outer]; the target of that export is the output [o] of
    the group [inner] nested in [outer], whose target is the node
    [source]: the chain of boundary redirects ends at a node element.
    [flatten] leaves the consumer wired to [inner], which is no element
    of the flat graph, instead of [source]. *)
Theorem flatten_nested_output_unresolved fuel :
  redirectOf (registerOutputs NestedOutput.outerGroup NestedOutput.outerOut
                (registerInputs NestedOutput.outerGroup NestedOutput.outerIn ∅))
             (mkIncoming "outer" "out")
  = Some (mkIncoming "inner" "o") /\
  redirectOf (registerOutputs NestedOutput.innerGroup NestedOutput.innerOut
                (registerInputs NestedOutput.innerGroup NestedOutput.innerIn ∅))
             (mkIncoming "inner" "o")
  = Some (mkIncoming "source" "output") /\
  flatten (S (S fuel)) NestedOutput.graph
  = Returned [NestedOutput.consumer (mkIncoming "inner" "o"); constNode "source" 42] /\
  findElement [NestedOutput.consumer (mkIncoming "inner" "o"); constNode "source" 42] "inner"
  = None /\
  findElement [NestedOutput.consumer (mkIncoming "inner" "o"); constNode "source" 42] "source"
  = Some (constNode "source" 42).
Proof. repeat split; vm_compute; reflexivity. Qed.

(** ** Input resolution *)

Lemma resolveInputs_other results element inputDesc socket :
  forall acc inp,
    ~ In socket (dict_keys inputDesc) ->
    resolveInputs results element inputDesc acc = Returned inp ->
    inp !! socket = acc !! socket.
Proof.
  induction inputDesc as [|[s d] rest IH]; intros acc inp Hnotin; simpl.
  - by intros [= <-].
  - destruct (socketValue results element s d) as [v| |]; simpl; [|done|done].
    intros H. apply IH in H.
    + rewrite H. unfold assignInput. case_decide; [done|].
      apply lookup_insert_ne. intros ->. apply Hnotin. by left.
    + intros Hin. apply Hnotin. by right.
Qed.

Lemma resolveInputs_lookup results element inputDesc socket desc v :
  forall acc inp,
    NoDup (dict_keys inputDesc) -> In (socket, desc) inputDesc ->
    socket <> "__proto__" ->
    socketValue results element socket desc = Returned v ->
    resolveInputs results element inputDesc acc = Returned inp ->
    inp !! socket = Some v.
Proof.
  induction inputDesc as [|[s d] rest IH]; intros acc inp Hnodup Hin Hproto Hvalue; [done|].
  simpl in Hnodup. inversion_clear Hnodup as [|? ? Hnotin Hrest].
  rewrite list_elem_of_In in Hnotin. simpl.
  destruct Hin as [[= -> ->]|Hin].
  - rewrite Hvalue. simpl. intros H.
    rewrite (resolveInputs_other _ _ _ _ _ _ Hnotin H). unfold assignInput.
    rewrite decide_False by done. apply lookup_insert_eq.
  - destruct (socketValue results element s d) as [v'| |]; simpl; [|done|done].
    by apply IH.
Qed.

Lemma assembleInput_inv registry results e type inp :
  assembleInput registry results e = Returned (type, inp) ->
  exists inputDesc,
    registry (typeId e) = Returned type /\
    input type (config e) = Returned inputDesc /\
    resolveInputs results e inputDesc ∅ = Returned inp.
Proof.
  unfold assembleInput.
  destruct (registry (typeId e)) as [type'| |] eqn:Htype; simpl; [|done|done].
  destruct (input type' (config e)) as [inputDesc| |] eqn:Hinput; simpl; [|done|done].
  destruct (resolveInputs results e inputDesc ∅) as [inp'| |] eqn:Hres; simpl; [|done|done].
  intros [= <- <-]. exists inputDesc. by repeat split.
Qed.

Lemma runOrder_call_inputs registry evalOrder :
  forall results calls outc calls' call,
    runOrder registry evalOrder results calls = (outc, calls') ->
    In call calls' ->
    In call calls \/
    exists results' type,
      assembleInput registry results' (call_element call) = Returned (type, call_input call).
Proof.
  induction evalOrder as [|element rest IH]; intros results calls outc calls' call; simpl.
  - intros [= <- <-]. auto.
  - destruct (assembleInput registry results element) as [[type inp]| |] eqn:Hasm;
      [|intros [= <- <-]; auto..].
    assert (Hlogged : In call (calls ++ [mkCall element inp]) ->
                      In call calls \/
                      exists results' type',
                        assembleInput registry results' (call_element call)
                        = Returned (type', call_input call)).
    { intros Hold. apply in_app_or in Hold as [Hold|[<-|[]]]; [auto|]. right. simpl. eauto. }
    destruct (evaluate type inp (config element)) as [out| |].
    + intros Hrun Hin. destruct (IH _ _ _ _ _ Hrun Hin) as [Hold|Hnew]; auto.
    + intros [= <- <-]. exact Hlogged.
    + intros [= <- <-]. exact Hlogged.
Qed.

Lemma runOrder_app registry l1 l2 :
  forall results calls,
    runOrder registry (l1 ++ l2) results calls =
    match runOrder registry l1 results calls with
    | (Returned r, calls') => runOrder registry l2 r calls'
    | other => other
    end.
Proof.
  induction l1 as [|element rest IH]; intros results calls; simpl; [done|].
  destruct (assembleInput registry results element) as [[type inp]| |]; [|done|done].
  destruct (evaluate type inp (config element)); [apply IH|done|done].
Qed.

Lemma runOrder_calls_prefix registry evalOrder :
  forall results calls outc calls',
    runOrder registry evalOrder results calls = (outc, calls') ->
    exists more, calls' = calls ++ more.
Proof.
  induction evalOrder as [|element rest IH]; intros results calls outc calls'; simpl.
  - intros [= <- <-]. exists []. by rewrite app_nil_r.
  - destruct (assembleInput registry results element) as [[type inp]| |];
      [|intros [= <- <-]; exists []; by rewrite app_nil_r..].
    destruct (evaluate type inp (config element)) as [out| |];
      [|intros [= <- <-]; eauto..].
    intros Hrun. apply IH in Hrun as [more ->]. rewrite <- app_assoc. eauto.
Qed.

(** C8 (violated by the code). The node type declares the input socket
    [constructor] with the default [0]; the element has no entry in its
    [incoming] map, for this socket or any other.  The read
    [element.incoming[socket]] finds the member [constructor] of
    [Object.prototype], which is truthy: the evaluator takes the branch
    of the wired sockets, finds no result, and throws the
    invariant-violation error instead of assigning the default;
    [evaluate] is not invoked. *)
Theorem unwired_inherited_socket_throws :
  InheritedSocket.registry (typeId InheritedSocket.element) = Returned InheritedSocket.type /\
  input InheritedSocket.type (config InheritedSocket.element)
  = Returned [("constructor", InheritedSocket.descriptor)] /\
  default InheritedSocket.descriptor = VNum 0 /\
  incoming InheritedSocket.element = [] /\
  buildEvalOrder InheritedSocket.graph InheritedSocket.targetIds
  = Returned [InheritedSocket.element] /\
  obind (buildEvalGraph InheritedSocket.graph InheritedSocket.targetIds)
        (fun evalGraph => evalGraph InheritedSocket.registry)
  = Thrown "BUG! Failed to obtain result from previous element" /\
  evaluateCalls [InheritedSocket.element] InheritedSocket.registry = [].
Proof. repeat split; vm_compute; reflexivity. Qed.




(** * Further properties of the order builder *)

Lemma reaches_trans graph e1 e2 e3 :
  reaches graph e1 e2 -> reaches graph e2 e3 -> reaches graph e1 e3.
Proof.
  induction 1 as [e|e s inc e' e2 Hs Hfind _ IH]; [done|].
  intros H. eapply reaches_step; eauto.
Qed.

Lemma reachableFromTargets_step graph targetIds e socket inc e' :
  reachableFromTargets graph targetIds e ->
  In (socket, inc) (incoming e) ->
  findElement graph (inc_elementId inc) = Some e' ->
  reachableFromTargets graph targetIds e'.
Proof.
  intros (t & et & Ht & Het & Hreach) Hs Hfind. exists t, et. split; [done|]. split; [done|].
  eapply reaches_trans; [exact Hreach|]. eapply reaches_step; eauto using reaches_refl.
Qed.

Lemma visit_reachable graph targetIds fuel :
  forall stack evalOrder out,
    Forall (reachableFromTargets graph targetIds) stack ->
    Forall (reachableFromTargets graph targetIds) evalOrder ->
    visit fuel graph stack evalOrder = Returned out ->
    Forall (reachableFromTargets graph targetIds) out.
Proof.
  induction fuel as [|fuel IH]; intros stack evalOrder out Hstack Horder.
  - destruct stack; simpl; [|done]. by intros [= <-].
  - destruct stack as [|top stack']; simpl; [by intros [= <-]|].
    apply Forall_cons in Hstack as [Htop Hstack].
    destruct (includes evalOrder top); [by apply IH|].
    apply IH; [|by constructor].
    apply Forall_forall. intros e He. apply list_elem_of_In in He.
    apply pushDependencies_In in He as [He|(s & inc & Hs & Hfind)].
    + rewrite Forall_forall in Hstack. apply Hstack. by apply list_elem_of_In.
    + eauto using reachableFromTargets_step.
Qed.

Lemma buildEvalOrderFrom_reachable graph allTargets targetIds :
  forall evalOrder out,
    (forall id, In id targetIds -> In id allTargets) ->
    Forall (reachableFromTargets graph allTargets) evalOrder ->
    buildEvalOrderFrom graph targetIds evalOrder = Returned out ->
    Forall (reachableFromTargets graph allTargets) out.
Proof.
  induction targetIds as [|id rest IH]; intros evalOrder out Hsub Horder;
    cbn [buildEvalOrderFrom].
  - by intros [= <-].
  - destruct (findElement graph id) as [element|] eqn:Hid; [|done].
    destruct (visit (visitFuel graph) graph [element] evalOrder) as [mid| |] eqn:Hvisit;
      cbn [obind]; [|done|done].
    apply IH; [intros id' Hid'; apply Hsub; by right|].
    eapply visit_reachable; [|exact Horder|exact Hvisit].
    constructor; [|done]. exists id, element.
    split; [apply Hsub; by left|]. split; [done|]. apply reaches_refl.
Qed.

(** X1. The evaluation order holds exactly the elements that some
    requested target reaches through wirings present in the graph. *)
Theorem buildEvalOrder_exactly_reachable graph targetIds evalOrder e :
  buildEvalOrder graph targetIds = Returned evalOrder ->
  In e evalOrder <-> reachableFromTargets graph targetIds e.
Proof.
  intros Hbuild. split.
  - intros He.
    pose proof (buildEvalOrderFrom_reachable graph targetIds targetIds [] evalOrder
                  (fun _ H => H) (Forall_nil_2 _) Hbuild) as Hall.
    rewrite Forall_forall in Hall. apply Hall. by apply list_elem_of_In.
  - intros (t & et & Ht & Het & Hreach).
    destruct (buildEvalOrderFrom_invariant graph targetIds [] evalOrder
                (orderInvariant_nil graph) Hbuild) as (Hinv & _ & Htargets).
    eapply closed_reaches; eauto.
Qed.

Lemma buildEvalOrder_exactly_reachable_witness :
  In Cycle.B [Cycle.B; Cycle.A] <-> reachableFromTargets Cycle.graph ["A"] Cycle.B.
Proof.
  apply (buildEvalOrder_exactly_reachable Cycle.graph ["A"] [Cycle.B; Cycle.A] Cycle.B).
  vm_compute. reflexivity.
Defined.

Lemma buildEvalOrder_distinct_ids graph targetIds evalOrder :
  buildEvalOrder graph targetIds = Returned evalOrder -> NoDup (ids evalOrder).
Proof.
  intros Hbuild.
  destruct (buildEvalOrderFrom_invariant graph targetIds [] evalOrder
              (orderInvariant_nil graph) Hbuild) as ([_ _ Hnodup _] & _).
  done.
Qed.

(** X2. No element id occurs twice in the evaluation order, and every
    element of the order is the element that [graph.find] returns for its
    id. *)
Theorem buildEvalOrder_distinct graph targetIds evalOrder :
  buildEvalOrder graph targetIds = Returned evalOrder ->
  NoDup (ids evalOrder) /\ Forall (found graph) evalOrder.
Proof.
  intros Hbuild.
  destruct (buildEvalOrderFrom_invariant graph targetIds [] evalOrder
              (orderInvariant_nil graph) Hbuild) as ([_ Hfound Hnodup _] & _).
  by split.
Qed.

Lemma buildEvalOrder_distinct_witness :
  NoDup (ids [SharedDependency.B; SharedDependency.C; SharedDependency.A]) /\
  Forall (found SharedDependency.graph)
         [SharedDependency.B; SharedDependency.C; SharedDependency.A].
Proof.
  apply (buildEvalOrder_distinct SharedDependency.graph SharedDependency.targetIds).
  vm_compute. reflexivity.
Defined.

Lemma buildEvalOrderFrom_outcome graph targetIds :
  forall evalOrder,
    (exists out, buildEvalOrderFrom graph targetIds evalOrder = Returned out) \/
    (exists id, In id targetIds /\ findElement graph id = None /\
                buildEvalOrderFrom graph targetIds evalOrder
                = Thrown ("Unable to find element with ID " +:+ id)).
Proof.
  induction targetIds as [|id rest IH]; intros evalOrder; cbn [buildEvalOrderFrom].
  - left. eauto.
  - destruct (findElement graph id) as [element|] eqn:Hid.
    + destruct (visit_from_target graph element evalOrder) as [mid ->];
        [eauto using findElement_In|].
      cbn [obind]. destruct (IH mid) as [Hok|(id' & Hin & Hnone & Hthrown)]; [by left|].
      right. exists id'. split; [by right|]. by split.
    + right. exists id. split; [by left|]. by split.
Qed.

(** X3. [buildEvalGraph] always terminates, also on a flat graph with
    dependency cycles: it returns an evaluator, or it throws the lookup
    error for a requested id that the graph lacks. *)
Theorem buildEvalGraph_terminates graph targetIds :
  (exists evalGraph, buildEvalGraph graph targetIds = Returned evalGraph) \/
  (exists id, In id targetIds /\ findElement graph id = None /\
              buildEvalGraph graph targetIds
              = Thrown ("Unable to find element with ID " +:+ id)).
Proof.
  unfold buildEvalGraph, buildEvalOrder.
  destruct (buildEvalOrderFrom_outcome graph targetIds []) as [[out ->]|(id & Hin & Hnone & ->)].
  - left. simpl. eauto.
  - right. exists id. by repeat split.
Qed.

(** * Further properties of the evaluator *)

Lemma declaredWirings_In registry e type inputDesc inc :
  registry (typeId e) = Returned type ->
  input type (config e) = Returned inputDesc ->
  In inc (declaredWirings registry e) <->
  exists socket desc, In (socket, desc) inputDesc /\
                      dict_get (incoming e) socket = Some inc.
Proof.
  intros Htype Hinput. unfold declaredWirings. rewrite Htype, Hinput.
  rewrite <- list_elem_of_In, list_elem_of_omap. split.
  - intros ([s d] & Hin & Hget). apply list_elem_of_In in Hin. eauto.
  - intros (s & d & Hin & Hget). exists (s, d). by rewrite list_elem_of_In.
Qed.

Lemma socketValue_outcome results e socket desc :
  (exists v, socketValue results e socket desc = Returned v) \/
  socketValue results e socket desc = Thrown bugMessage.
Proof.
  unfold socketValue. destruct (readOwnOrInherited (incoming e) socket) as [inc| |]; eauto.
  destruct (results !! inc_elementId inc) as [[result|]|]; eauto.
Qed.

Lemma resolveInputs_outcome results e inputDesc :
  forall acc,
    (exists inp, resolveInputs results e inputDesc acc = Returned inp) \/
    resolveInputs results e inputDesc acc = Thrown bugMessage.
Proof.
  induction inputDesc as [|[s d] rest IH]; intros acc; simpl; [eauto|].
  destruct (socketValue_outcome results e s d) as [[v ->]| ->]; simpl; [apply IH|by right].
Qed.

Lemma socketValue_returned results e socket desc v inc :
  socketValue results e socket desc = Returned v ->
  dict_get (incoming e) socket = Some inc ->
  exists out, results !! inc_elementId inc = Some (Some out) /\
              v = readField out (inc_socket inc).
Proof.
  unfold socketValue, readOwnOrInherited. intros Hvalue Hget. rewrite Hget in Hvalue.
  destruct (results !! inc_elementId inc) as [[result|]|]; [|done|done].
  injection Hvalue as <-. eauto.
Qed.

Lemma resolveInputs_returned results e inputDesc :
  forall acc inp,
    resolveInputs results e inputDesc acc = Returned inp ->
    forall socket desc inc,
      In (socket, desc) inputDesc -> dict_get (incoming e) socket = Some inc ->
      exists out, results !! inc_elementId inc = Some (Some out).
Proof.
  induction inputDesc as [|[s d] rest IH]; intros acc inp Hres socket desc inc; [done|].
  simpl in Hres. intros [[= -> ->]|Hin] Hget.
  - destruct (socketValue results e socket desc) as [v| |] eqn:Hvalue; simpl in Hres;
      [|done|done].
    destruct (socketValue_returned _ _ _ _ _ _ Hvalue Hget) as (out & Hout & _). eauto.
  - destruct (socketValue results e s d); simpl in Hres; [|done|done].
    by apply (IH _ _ Hres socket desc inc).
Qed.

Lemma resolveInputs_returns results e inputDesc :
  (forall socket desc,
      In (socket, desc) inputDesc ->
      match dict_get (incoming e) socket with
      | Some inc => exists out, results !! inc_elementId inc = Some (Some out)
      | None => inheritedKey socket = false
      end) ->
  forall acc, exists inp, resolveInputs results e inputDesc acc = Returned inp.
Proof.
  induction inputDesc as [|[s d] rest IH]; intros Hall acc; simpl; [eauto|].
  assert (Hrest : forall socket desc,
             In (socket, desc) rest ->
             match dict_get (incoming e) socket with
             | Some inc => exists out, results !! inc_elementId inc = Some (Some out)
             | None => inheritedKey socket = false
             end).
  { intros s' d' Hin. apply (Hall s' d'). by right. }
  pose proof (Hall s d (or_introl eq_refl)) as Hs.
  unfold socketValue, readOwnOrInherited.
  destruct (dict_get (incoming e) s) as [inc|].
  - destruct Hs as [out ->]. simpl. by apply IH.
  - rewrite Hs. simpl. by apply IH.
Qed.

Lemma resolveInputs_keys results e inputDesc :
  forall acc inp socket,
    resolveInputs results e inputDesc acc = Returned inp ->
    is_Some (inp !! socket) <->
    is_Some (acc !! socket) \/ In socket (dict_keys inputDesc) /\ socket <> "__proto__".
Proof.
  induction inputDesc as [|[s d] rest IH]; intros acc inp socket; simpl.
  - intros [= <-]. tauto.
  - destruct (socketValue results e s d) as [v| |]; simpl; [|done|done].
    intros H. rewrite (IH _ _ _ H). unfold assignInput. case_decide as Hproto.
    + subst s. split; [tauto|]. intros [?|[[<-|?] ?]]; tauto.
    + rewrite lookup_insert_is_Some.
      destruct (decide (s = socket)) as [->|]; tauto.
Qed.

Lemma runOrder_returned_producers registry evalOrder :
  forall results calls r calls',
    runOrder registry evalOrder results calls = (Returned r, calls') ->
    forall before e after inc,
      evalOrder = before ++ e :: after ->
      In inc (declaredWirings registry e) ->
      is_Some (results !! inc_elementId inc) \/ In (inc_elementId inc) (ids before).
Proof.
  induction evalOrder as [|element rest IH]; intros results calls r calls' Hrun
    before e after inc Hsplit Hinc.
  - by destruct before.
  - simpl in Hrun.
    destruct (assembleInput registry results element) as [[type inp]| |] eqn:Hasm;
      [|done|done].
    destruct (evaluate type inp (config element)) as [out| |]; [|done|done].
    destruct before as [|b before']; simpl in Hsplit; injection Hsplit as <- ->.
    + left. apply assembleInput_inv in Hasm as (inputDesc & Htype & Hinput & Hres).
      apply (declaredWirings_In _ _ _ _ _ Htype Hinput) in Hinc as (s & d & Hin & Hget).
      destruct (resolveInputs_returned _ _ _ _ _ Hres s d inc Hin Hget) as [out' ->]. eauto.
    + destruct (IH _ _ _ _ Hrun before' e after inc eq_refl Hinc) as [Hsome|Hin].
      * apply lookup_insert_is_Some in Hsome as [Heq|[_ Hsome]]; [|by left].
        right. left. done.
      * right. by right.
Qed.

(** X4. When the evaluator returns a result map, every producer wired to
    an input socket that an element's node type declares was evaluated
    before that element. *)
Theorem evaluator_returns_only_if_producers_earlier evalOrder registry results :
  evaluator evalOrder registry = Returned results ->
  producersEarlier registry evalOrder.
Proof.
  unfold evaluator. destruct (runOrder registry evalOrder ∅ []) as [outc calls'] eqn:Hrun.
  simpl. intros ->. intros before e after inc Hsplit Hinc.
  destruct (runOrder_returned_producers _ _ _ _ _ _ Hrun before e after inc Hsplit Hinc)
    as [Hsome|Hin]; [|done].
  rewrite lookup_empty in Hsome. by destruct Hsome.
Qed.

Lemma evaluator_returns_only_if_producers_earlier_witness :
  producersEarlier Readme.registry (nodesOf Readme.graph).
Proof.
  apply (evaluator_returns_only_if_producers_earlier _ _ readmeResults).
  vm_compute. reflexivity.
Defined.

Lemma runOrder_returns registry evalOrder :
  forall results calls,
    (forall e, In e evalOrder -> evaluable registry e) ->
    (forall before e after inc,
        evalOrder = before ++ e :: after ->
        In inc (declaredWirings registry e) ->
        (exists out, results !! inc_elementId inc = Some (Some out)) \/
        In (inc_elementId inc) (ids before)) ->
    exists r calls', runOrder registry evalOrder results calls = (Returned r, calls').
Proof.
  induction evalOrder as [|element rest IH]; intros results calls Htypes Hprod; simpl; [eauto|].
  destruct (Htypes element (or_introl eq_refl))
    as (type & inputDesc & Htype & Hinput & Hown & Hevaluate).
  unfold assembleInput. rewrite Htype. cbn [obind]. rewrite Hinput. cbn [obind].
  assert (Hwired : forall s d,
             In (s, d) inputDesc ->
             match dict_get (incoming element) s with
             | Some inc => exists out, results !! inc_elementId inc = Some (Some out)
             | None => inheritedKey s = false
             end).
  { intros s d Hin. destruct (dict_get (incoming element) s) as [inc|] eqn:Hget.
    - destruct (Hprod [] element rest inc eq_refl) as [H|[]]; [|done].
      apply (declaredWirings_In _ _ _ _ _ Htype Hinput). eauto.
    - apply Hown; [|done]. unfold dict_keys. by apply (in_map fst _ (s, d)). }
  destruct (resolveInputs_returns results element _ Hwired ∅) as [inp ->].
  cbn [obind]. destruct (Hevaluate inp) as [out ->]. apply IH.
  - intros e He. apply Htypes. by right.
  - intros before e after inc Hsplit Hinc.
    destruct (Hprod (element :: before) e after inc) as [[out' H]|[H|H]];
      [by rewrite Hsplit|done|..].
    + left. destruct (decide (elementId element = inc_elementId inc)) as [Heq|Hne].
      * exists out. rewrite <- Heq. apply lookup_insert_eq.
      * exists out'. by rewrite lookup_insert_ne.
    + left. exists out. rewrite <- H. apply lookup_insert_eq.
    + by right.
Qed.

(** X5. When every element of the order is evaluable (the registry
    resolves its type, [input(config)] returns the socket descriptors,
    [evaluate] returns a record for every input record, and no declared
    socket that the element leaves without wiring carries the name of a
    member of [Object.prototype]) and every producer wired to a declared
    input socket is evaluated before its consumer, the evaluator returns
    a result map. *)
Theorem evaluator_returns_if_producers_earlier evalOrder registry :
  (forall e, In e evalOrder -> evaluable registry e) ->
  producersEarlier registry evalOrder ->
  exists results, evaluator evalOrder registry = Returned results.
Proof.
  intros Htypes Hprod. unfold evaluator.
  destruct (runOrder_returns registry evalOrder ∅ [] Htypes) as (r & calls' & ->).
  - intros before e after inc Hsplit Hinc. right. eauto.
  - simpl. eauto.
Qed.

Lemma readme_evaluable e : In e (nodesOf Readme.graph) -> evaluable SharedDependency.registry e.
Proof.
  intros [<-|[<-|[<-|[]]]].
  - exists Readme.ConstNode, []. repeat split; [by intros ? []|]. intros inp. simpl. eauto.
  - exists Readme.ConstNode, []. repeat split; [by intros ? []|]. intros inp. simpl. eauto.
  - exists Readme.MathNode, [("a", mkInputSocket "A" (TypeTag "number") (VNum 0));
                             ("b", mkInputSocket "B" (TypeTag "number") (VNum 0))].
    repeat split.
    + intros socket [<-|[<-|[]]]; vm_compute; congruence.
    + intros inp. simpl. eauto.
Qed.

Lemma evaluator_returns_if_producers_earlier_witness :
  exists results, evaluator (nodesOf Readme.graph) SharedDependency.registry = Returned results.
Proof.
  apply evaluator_returns_if_producers_earlier.
  - exact readme_evaluable.
  - intros before e after inc Hsplit Hinc.
    destruct (runOrder SharedDependency.registry (nodesOf Readme.graph) ∅ [])
      as [outc calls'] eqn:Hrun.
    assert (Hreturned : exists r, outc = Returned r).
    { vm_compute in Hrun. injection Hrun as <- _. eauto. }
    destruct Hreturned as [r ->].
    destruct (runOrder_returned_producers _ _ _ _ _ _ Hrun before e after inc Hsplit Hinc)
      as [Hsome|Hin]; [|done].
    rewrite lookup_empty in Hsome. by destruct Hsome.
Defined.

Lemma runOrder_keys registry evalOrder :
  forall results calls r calls' id,
    runOrder registry evalOrder results calls = (Returned r, calls') ->
    is_Some (r !! id) <-> is_Some (results !! id) \/ In id (ids evalOrder).
Proof.
  induction evalOrder as [|element rest IH]; intros results calls r calls' id; simpl.
  - intros [= <- _]. tauto.
  - destruct (assembleInput registry results element) as [[type inp]| |]; [|done|done].
    destruct (evaluate type inp (config element)) as [out| |]; [|done|done].
    intros Hrun. rewrite (IH _ _ _ _ _ Hrun), lookup_insert_is_Some.
    destruct (decide (elementId element = id)); tauto.
Qed.

(** X6. The result map that the evaluator returns has an entry for the
    id of every element of the order, the requested targets and their
    dependencies alike, and for no other id. *)
Theorem evaluator_results_keys evalOrder registry results id :
  evaluator evalOrder registry = Returned results ->
  is_Some (results !! id) <-> In id (ids evalOrder).
Proof.
  unfold evaluator. destruct (runOrder registry evalOrder ∅ []) as [outc calls'] eqn:Hrun.
  simpl. intros ->. rewrite (runOrder_keys _ _ _ _ _ _ id Hrun), lookup_empty.
  split; [|by right]. intros [[? ?]|?]; done.
Qed.

Lemma evaluator_results_keys_witness :
  is_Some (readmeResults !! "const/b") <-> In "const/b" (ids (nodesOf Readme.graph)).
Proof.
  apply (evaluator_results_keys (nodesOf Readme.graph) Readme.registry).
  vm_compute. reflexivity.
Defined.

Lemma assembleInput_thrown registry results e msg :
  assembleInput registry results e = Thrown msg ->
  msg = bugMessage \/
  registry (typeId e) = Thrown msg \/
  exists type, registry (typeId e) = Returned type /\ input type (config e) = Thrown msg.
Proof.
  unfold assembleInput.
  destruct (registry (typeId e)) as [type|msg'|] eqn:Htype; simpl;
    [|intros [= ->]; right; by left|done].
  destruct (input type (config e)) as [inputDesc|msg'|] eqn:Hinput; simpl;
    [|intros [= ->]; right; right; by exists type|done].
  destruct (resolveInputs_outcome results e inputDesc ∅) as [[inp ->]| ->]; simpl; [done|].
  intros [= <-]. by left.
Qed.

Lemma runOrder_thrown registry evalOrder :
  forall results calls msg calls',
    runOrder registry evalOrder results calls = (Thrown msg, calls') ->
    msg = bugMessage \/
    exists e,
      In e evalOrder /\
      (registry (typeId e) = Thrown msg \/
       exists type,
         registry (typeId e) = Returned type /\
         (input type (config e) = Thrown msg \/
          exists inp, evaluate type inp (config e) = Thrown msg)).
Proof.
  induction evalOrder as [|element rest IH]; intros results calls msg calls'; simpl; [done|].
  destruct (assembleInput registry results element) as [[type inp]|msg'|] eqn:Hasm.
  - destruct (evaluate type inp (config element)) as [out|msg'|] eqn:Hevaluate.
    + intros Hrun. destruct (IH _ _ _ _ Hrun) as [?|(e & He & Hthrown)]; [by left|].
      right. exists e. split; [by right|done].
    + intros [= <- _]. right. exists element. split; [by left|]. right.
      apply assembleInput_inv in Hasm as (inputDesc & Htype & _). eauto.
    + done.
  - intros [= <- _].
    destruct (assembleInput_thrown _ _ _ _ Hasm) as [?|[?|(type & ? & ?)]]; [by left|..];
      right; exists element; (split; [by left|]); eauto.
  - done.
Qed.

(** X7. An error thrown by the evaluator is the invariant-violation
    error, the error that the registry threw for the type id of an
    element of the order, or the error that [input] or [evaluate] of the
    node type of such an element threw. *)
Theorem evaluator_errors evalOrder registry msg :
  evaluator evalOrder registry = Thrown msg ->
  msg = bugMessage \/
  exists e,
    In e evalOrder /\
    (registry (typeId e) = Thrown msg \/
     exists type,
       registry (typeId e) = Returned type /\
       (input type (config e) = Thrown msg \/
        exists inp, evaluate type inp (config e) = Thrown msg)).
Proof.
  unfold evaluator. destruct (runOrder registry evalOrder ∅ []) as [outc calls'] eqn:Hrun.
  simpl. intros ->. eapply runOrder_thrown. exact Hrun.
Qed.

Lemma evaluator_errors_witness :
  "No such node with type noise" = bugMessage \/
  exists e,
    In e [UnknownType.D; UnknownType.C; UnknownType.B; UnknownType.A] /\
    (Readme.registry (typeId e) = Thrown "No such node with type noise" \/
     exists type,
       Readme.registry (typeId e) = Returned type /\
       (input type (config e) = Thrown "No such node with type noise" \/
        exists inp, evaluate type inp (config e) = Thrown "No such node with type noise")).
Proof.
  apply (evaluator_errors [UnknownType.D; UnknownType.C; UnknownType.B; UnknownType.A]
           Readme.registry).
  vm_compute. reflexivity.
Defined.

(** X8. The input record handed to [evaluate] has exactly the sockets
    that the node type declares for the element's configuration: a
    wiring of the element to a socket that is not declared is ignored.
    (A declared socket named [__proto__] is the one exception: its
    assignment adds no field to the record.) *)
Theorem evaluate_input_has_declared_sockets registry evalOrder call type inputDesc socket :
  In call (evaluateCalls evalOrder registry) ->
  registry (typeId (call_element call)) = Returned type ->
  input type (config (call_element call)) = Returned inputDesc ->
  is_Some (call_input call !! socket) <->
  In socket (dict_keys inputDesc) /\ socket <> "__proto__".
Proof.
  unfold evaluateCalls. intros Hcall Htype Hinput.
  destruct (runOrder registry evalOrder ∅ []) as [outc calls'] eqn:Hrun. simpl in Hcall.
  destruct (runOrder_call_inputs _ _ _ _ _ _ _ Hrun Hcall) as [[]|(results' & type' & Hasm)].
  apply assembleInput_inv in Hasm as (inputDesc' & Htype' & Hinput' & Hres).
  assert (type' = type) as -> by congruence.
  assert (inputDesc' = inputDesc) as -> by congruence.
  rewrite (resolveInputs_keys _ _ _ _ _ socket Hres), lookup_empty.
  split; [|by right]. intros [[? ?]|?]; done.
Qed.

Lemma evaluate_input_has_declared_sockets_witness :
  is_Some (call_input (mkCall SharedDependency.A (<[ "b" := VNum 0 ]> (<[ "a" := VNum 42 ]> ∅)))
             !! "c")
  <-> In "c" (dict_keys [("a", mkInputSocket "A" (TypeTag "number") (VNum 0));
                         ("b", mkInputSocket "B" (TypeTag "number") (VNum 0))])
      /\ "c" <> "__proto__".
Proof.
  apply (evaluate_input_has_declared_sockets SharedDependency.registry
           [SharedDependency.C; SharedDependency.A] _ Readme.MathNode).
  - vm_compute. right. left. reflexivity.
  - reflexivity.
  - reflexivity.
Defined.

(** X27. For every element for which the evaluator invokes [evaluate],
    each input socket declared by [input(config)] of its node type that
    has no entry in the element's [incoming] map and whose name is not
    the name of a member of [Object.prototype] holds, in the input
    record, the default value of its descriptor. *)
Theorem unwired_own_socket_gets_default registry evalOrder call type inputDesc socket desc :
  In call (evaluateCalls evalOrder registry) ->
  registry (typeId (call_element call)) = Returned type ->
  input type (config (call_element call)) = Returned inputDesc ->
  NoDup (dict_keys inputDesc) ->
  In (socket, desc) inputDesc ->
  dict_get (incoming (call_element call)) socket = None ->
  inheritedKey socket = false ->
  call_input call !! socket = Some (default desc).
Proof.
  unfold evaluateCalls. intros Hcall Htype Hinput Hnodup Hdesc Hunwired Hinherited.
  destruct (runOrder registry evalOrder ∅ []) as [outc calls'] eqn:Hrun. simpl in Hcall.
  destruct (runOrder_call_inputs _ _ _ _ _ _ _ Hrun Hcall) as [[]|(results' & type' & Hasm)].
  apply assembleInput_inv in Hasm as (inputDesc' & Htype' & Hinput' & Hres).
  assert (type' = type) as -> by congruence.
  assert (inputDesc' = inputDesc) as -> by congruence.
  eapply resolveInputs_lookup; eauto.
  - intros ->. vm_compute in Hinherited. discriminate.
  - unfold socketValue, readOwnOrInherited. by rewrite Hunwired, Hinherited.
Qed.

Lemma unwired_own_socket_gets_default_witness :
  call_input (mkCall SharedDependency.A (<[ "b" := VNum 0 ]> (<[ "a" := VNum 42 ]> ∅))) !! "b"
  = Some (default (mkInputSocket "B" (TypeTag "number") (VNum 0))).
Proof.
  apply (unwired_own_socket_gets_default SharedDependency.registry
           [SharedDependency.C; SharedDependency.A] _ Readme.MathNode
           [("a", mkInputSocket "A" (TypeTag "number") (VNum 0));
            ("b", mkInputSocket "B" (TypeTag "number") (VNum 0))]).
  - vm_compute. right. left. reflexivity.
  - reflexivity.
  - reflexivity.
  - simpl. repeat constructor; rewrite list_elem_of_In; simpl; intuition discriminate.
  - simpl. right. left. reflexivity.
  - reflexivity.
  - reflexivity.
Defined.

Lemma runOrder_extends registry evalOrder :
  forall results calls r calls',
    runOrder registry evalOrder results calls = (Returned r, calls') ->
    NoDup (ids evalOrder) ->
    (forall id, In id (ids evalOrder) -> results !! id = None) ->
    results ⊆ r.
Proof.
  induction evalOrder as [|element rest IH]; intros results calls r calls'; simpl.
  - by intros [= <- _].
  - destruct (assembleInput registry results element) as [[type inp]| |]; [|done|done].
    destruct (evaluate type inp (config element)) as [out| |]; [|done|done].
    intros Hrun Hnodup Hfresh. inversion_clear Hnodup as [|? ? Hnotin Hrest].
    rewrite list_elem_of_In in Hnotin.
    etrans; [apply (insert_subseteq results (elementId element) out); auto|].
    eapply IH; [exact Hrun|done|].
    intros id Hid. rewrite lookup_insert_ne; [auto|]. intros <-. done.
Qed.

Lemma runOrder_call_results registry evalOrder :
  forall results calls r calls' call,
    runOrder registry evalOrder results calls = (Returned r, calls') ->
    NoDup (ids evalOrder) ->
    (forall id, In id (ids evalOrder) -> results !! id = None) ->
    In call calls' ->
    In call calls \/
    exists results' type out,
      results' ⊆ r /\
      assembleInput registry results' (call_element call) = Returned (type, call_input call) /\
      evaluate type (call_input call) (config (call_element call)) = Returned out /\
      r !! elementId (call_element call) = Some out.
Proof.
  induction evalOrder as [|element rest IH]; intros results calls r calls' call; simpl.
  - intros [= <- <-]. auto.
  - destruct (assembleInput registry results element) as [[type inp]| |] eqn:Hasm;
      [|done|done].
    destruct (evaluate type inp (config element)) as [out| |] eqn:Hevaluate; [|done|done].
    intros Hrun Hnodup Hfresh Hin. inversion Hnodup as [|? ? Hnotin Hrest]; subst.
    rewrite list_elem_of_In in Hnotin.
    assert (Hfresh' : forall id, In id (ids rest) ->
                                 <[elementId element := out]> results !! id = None).
    { intros id Hid. rewrite lookup_insert_ne; [auto|]. intros <-. done. }
    destruct (IH _ _ _ _ _ Hrun Hrest Hfresh' Hin) as [Hold|Hnew]; [|auto].
    apply in_app_or in Hold as [Hold|[<-|[]]]; [auto|]. right.
    pose proof (runOrder_extends _ _ _ _ _ _ Hrun Hrest Hfresh') as Hext.
    exists results, type, out. simpl. split; [|split; [done|split; [done|]]].
    + etrans; [apply (insert_subseteq results (elementId element) out); auto|done].
    + eapply lookup_weaken; [|exact Hext]. apply lookup_insert_eq.
Qed.

(** X9. In a run that returns a result map, an input socket that the node
    type declares (under a name other than [__proto__]) and that the
    element wires to a producer receives what the read of the field that
    the wiring names gives on the producer's output record, as the result
    map holds it: the field of the record, else the member of that name
    of [Object.prototype], else [undefined]. *)
Theorem wired_socket_reads_producer_output graph targetIds evalOrder registry results
    call type inputDesc socket desc inc :
  buildEvalOrder graph targetIds = Returned evalOrder ->
  evaluator evalOrder registry = Returned results ->
  In call (evaluateCalls evalOrder registry) ->
  registry (typeId (call_element call)) = Returned type ->
  input type (config (call_element call)) = Returned inputDesc ->
  NoDup (dict_keys inputDesc) ->
  In (socket, desc) inputDesc ->
  socket <> "__proto__" ->
  dict_get (incoming (call_element call)) socket = Some inc ->
  exists out,
    results !! inc_elementId inc = Some (Some out) /\
    call_input call !! socket
    = Some (match out !! inc_socket inc with
            | Some v => v
            | None => if inheritedKey (inc_socket inc)
                      then VObjectPrototype (inc_socket inc) else VUndefined
            end).
Proof.
  intros Hbuild Hret Hcall Htype Hinput Hnodup Hdesc Hproto Hwired.
  apply buildEvalOrder_distinct_ids in Hbuild.
  unfold evaluator, evaluateCalls in *.
  destruct (runOrder registry evalOrder ∅ []) as [outc calls'] eqn:Hrun.
  simpl in Hret, Hcall. subst outc.
  destruct (runOrder_call_results _ _ _ _ _ _ _ Hrun Hbuild (fun _ _ => lookup_empty _) Hcall)
    as [[]|(results' & type' & outE & Hsub & Hasm & _)].
  apply assembleInput_inv in Hasm as (inputDesc' & Htype' & Hinput' & Hres).
  assert (type' = type) as -> by congruence.
  assert (inputDesc' = inputDesc) as -> by congruence.
  destruct (resolveInputs_returned _ _ _ _ _ Hres socket desc inc Hdesc Hwired) as [out' Hout'].
  exists out'. split; [by eapply lookup_weaken|].
  eapply resolveInputs_lookup; eauto.
  unfold socketValue, readOwnOrInherited. by rewrite Hwired, Hout'.
Qed.

Lemma wired_socket_reads_producer_output_witness :
  exists out,
    readmeResults !! "const/b" = Some (Some out) /\
    call_input readmeMathCall !! "b"
    = Some (match out !! "output" with
            | Some v => v
            | None => if inheritedKey "output" then VObjectPrototype "output" else VUndefined
            end).
Proof.
  apply (wired_socket_reads_producer_output (nodesOf Readme.graph) ["math/add"]
           (nodesOf Readme.graph) Readme.registry readmeResults readmeMathCall
           Readme.MathNode
           [("a", mkInputSocket "A" (TypeTag "number") (VNum 0));
            ("b", mkInputSocket "B" (TypeTag "number") (VNum 0))]
           "b" (mkInputSocket "B" (TypeTag "number") (VNum 0))
           (mkIncoming "const/b" "output")).
  - vm_compute. reflexivity.
  - vm_compute. reflexivity.
  - vm_compute. right. right. left. reflexivity.
  - reflexivity.
  - reflexivity.
  - simpl. repeat constructor; rewrite list_elem_of_In; simpl; intuition discriminate.
  - simpl. right. left. reflexivity.
  - discriminate.
  - reflexivity.
Defined.

(** X10. In a run that returns a result map, the entry of the map for an
    element is what [evaluate] of its node type returned for the input
    record assembled for it and its configuration. *)
Theorem results_hold_evaluate_outputs graph targetIds evalOrder registry results call type :
  buildEvalOrder graph targetIds = Returned evalOrder ->
  evaluator evalOrder registry = Returned results ->
  In call (evaluateCalls evalOrder registry) ->
  registry (typeId (call_element call)) = Returned type ->
  exists out,
    evaluate type (call_input call) (config (call_element call)) = Returned out /\
    results !! elementId (call_element call) = Some out.
Proof.
  intros Hbuild Hret Hcall Htype.
  apply buildEvalOrder_distinct_ids in Hbuild.
  unfold evaluator, evaluateCalls in *.
  destruct (runOrder registry evalOrder ∅ []) as [outc calls'] eqn:Hrun.
  simpl in Hret, Hcall. subst outc.
  destruct (runOrder_call_results _ _ _ _ _ _ _ Hrun Hbuild (fun _ _ => lookup_empty _) Hcall)
    as [[]|(results' & type' & out & _ & Hasm & Hevaluate & Hout)].
  apply assembleInput_inv in Hasm as (inputDesc & Htype' & _).
  assert (type' = type) as -> by congruence. eauto.
Qed.

Lemma results_hold_evaluate_outputs_witness :
  exists out,
    evaluate Readme.MathNode (call_input readmeMathCall) (VStr "*") = Returned out /\
    readmeResults !! "math/add" = Some out.
Proof.
  apply (results_hold_evaluate_outputs (nodesOf Readme.graph) ["math/add"]
           (nodesOf Readme.graph) Readme.registry readmeResults readmeMathCall
           Readme.MathNode).
  - vm_compute. reflexivity.
  - vm_compute. reflexivity.
  - vm_compute. right. right. left. reflexivity.
  - reflexivity.
Defined.

(** * Further properties of [flatten] *)

(** X11. In a graph without group, [flatten] returns the node elements in
    their order, unchanged, and drops every other element: frames and
    boundary markers found outside a group. *)
Theorem flatten_drops_frames_and_markers fuel (graph : NodeGraph) :
  Forall notGroup graph ->
  flatten (S fuel) graph = Returned (nodesOf graph).
Proof.
  intros Hgraph. unfold flatten, flattenBody.
  rewrite (collect_notGroup _ _ Hgraph). simpl obind. cbv beta iota.
  apply rewriteLoop_settled, noneRedirected_empty.
Qed.

Lemma flatten_drops_frames_and_markers_witness :
  flatten 1 [Frame (mkFrame "frame" None ["n"]); Node (constNode "n" 1);
             GroupInput StraightThrough.groupIn; Node (constNode "m" 2);
             GroupOutput StraightThrough.groupOut]
  = Returned [constNode "n" 1; constNode "m" 2].
Proof.
  apply (flatten_drops_frames_and_markers 0
           [Frame (mkFrame "frame" None ["n"]); Node (constNode "n" 1);
            GroupInput StraightThrough.groupIn; Node (constNode "m" 2);
            GroupOutput StraightThrough.groupOut]).
  repeat constructor.
Defined.

Lemma collect_app rec elements1 elements2 :
  forall flattened redirects,
    collect rec (elements1 ++ elements2) flattened redirects
    = obind (collect rec elements1 flattened redirects)
            (fun '(flattened', redirects') => collect rec elements2 flattened' redirects').
Proof.
  induction elements1 as [|el rest IH]; intros fl rd; simpl; [done|].
  destruct el as [f|n|g sub|gi|go]; try apply IH.
  destruct (findGroupInput sub); [|done]. destruct (findGroupOutput sub); [|done].
  destruct (rec (Group g sub)); [apply IH|done|done].
Qed.

(** X12. [flatten] throws the structural error that names a group
    without [group-input] or without [group-output] marker, whatever
    follows it, as soon as the elements before the group hold no group. *)
Theorem flatten_group_without_marker fuel pre g sub post :
  Forall notGroup pre ->
  findGroupInput sub = None \/ findGroupOutput sub = None ->
  flatten fuel (pre ++ Group g sub :: post)
  = Thrown ("Group " +:+ group_elementId g +:+ " must have input and output").
Proof.
  intros Hpre Hmissing. unfold flatten, flattenBody.
  rewrite collect_app, (collect_notGroup _ _ Hpre). simpl.
  destruct Hmissing as [-> | ->]; [done|]. by destruct (findGroupInput sub).
Qed.

Lemma flatten_group_without_marker_witness :
  flatten 5 ([Node (constNode "n" 1)] ++ Malformed.broken :: [Node (constNode "m" 2)])
  = Thrown "Group broken must have input and output".
Proof.
  apply (flatten_group_without_marker 5 [Node (constNode "n" 1)]
           (mkGroup "broken" None 0%Z 0%Z 120%Z [])
           [GroupInput (mkGroupInput "broken/in" None 0%Z 0%Z 120%Z [])]
           [Node (constNode "m" 2)]).
  - repeat constructor.
  - right. reflexivity.
Defined.

Lemma rewriteLoop_not_thrown fuel redirects :
  forall result msg, rewriteLoop fuel redirects result <> Thrown msg.
Proof.
  induction fuel as [|fuel IH]; intros result msg; simpl; [done|].
  destruct (rewritePass redirects result false) as [result' changed].
  destruct changed; [apply IH|done].
Qed.

Lemma collect_errors rec elements :
  Forall (nestedErrors rec) elements ->
  forall flattened redirects msg,
    collect rec elements flattened redirects = Thrown msg ->
    exists g0 sub0,
      containsGroup elements g0 sub0 /\
      (findGroupInput sub0 = None \/ findGroupOutput sub0 = None) /\
      msg = structuralError g0.
Proof.
  induction 1 as [|el rest Hel _ IH]; intros fl rd msg; simpl; [done|].
  assert (Hlift : (exists g0 sub0,
                      containsGroup rest g0 sub0 /\
                      (findGroupInput sub0 = None \/ findGroupOutput sub0 = None) /\
                      msg = structuralError g0) ->
                  exists g0 sub0,
                      containsGroup (el :: rest) g0 sub0 /\
                      (findGroupInput sub0 = None \/ findGroupOutput sub0 = None) /\
                      msg = structuralError g0).
  { intros (g0 & sub0 & Hc & Hm & Hmsg). exists g0, sub0. split; [|done].
    destruct Hc as [graph g1 sub1 Hin|graph g' sub' g1 sub1 Hin Hc].
    - apply containsGroup_here. by right.
    - eapply containsGroup_nested; [right; exact Hin|done]. }
  destruct el as [f|n|g sub|gi|go]; try (intros H; apply Hlift; eapply IH; exact H).
  destruct (findGroupInput sub) as [groupIn|] eqn:Hin.
  - destruct (findGroupOutput sub) as [groupOut|] eqn:Hout.
    + destruct (rec (Group g sub)) as [inner|msg'|] eqn:Hrec.
      * intros H. apply Hlift. eapply IH. exact H.
      * intros [= <-]. destruct (Hel g sub msg' eq_refl Hrec) as (g0 & sub0 & Hc & Hm & Hmsg).
        exists g0, sub0. split; [|done]. eapply containsGroup_nested; [by left|done].
      * done.
    + intros [= <-]. exists g, sub. split; [apply containsGroup_here; by left|]. auto.
  - intros [= <-]. exists g, sub. split; [apply containsGroup_here; by left|]. auto.
Qed.

Lemma flattenBody_errors rec fuel graph msg :
  Forall (nestedErrors rec) graph ->
  flattenBody rec fuel graph = Thrown msg ->
  exists g0 sub0,
    containsGroup graph g0 sub0 /\
    (findGroupInput sub0 = None \/ findGroupOutput sub0 = None) /\
    msg = structuralError g0.
Proof.
  intros Hrec. unfold flattenBody.
  destruct (collect rec graph [] ∅) as [[fl rd]|msg'|] eqn:E; simpl.
  - intros H. by apply rewriteLoop_not_thrown in H.
  - intros [= <-]. eapply collect_errors; eauto.
  - done.
Qed.

Lemma flattenGroup_errors fuel element : nestedErrors (flattenGroup fuel) element.
Proof.
  induction element as [f|n|g sub IH|gi|go] using GraphElement_nested_ind;
    intros g' sub' msg; try discriminate.
  intros [= <- <-]. simpl. apply flattenBody_errors. exact IH.
Qed.



Lemma anyRedirected_true redirects entries :
  anyRedirected redirects entries = true <->
  exists socket inc, In (socket, inc) entries /\ redirected redirects inc = true.
Proof.
  unfold anyRedirected. rewrite existsb_exists. split.
  - intros ([s inc] & Hin & H). eauto.
  - intros (s & inc & Hin & H). exists (s, inc). eauto.
Qed.

Lemma followEntries_In redirects entries socket inc :
  In (socket, inc) entries -> In (socket, follow redirects inc) (followEntries redirects entries).
Proof.
  intros Hin. unfold followEntries.
  apply (in_map (fun '(s, i) => (s, follow redirects i)) _ _ Hin).
Qed.

(** A wiring that sits on a cycle of redirects keeps the loop running. *)
Lemma rewriteLoop_cycle redirects (P : Incoming -> Prop) :
  (forall inc, P inc -> exists target, redirectOf redirects inc = Some target /\ P target) ->
  forall fuel result, someWiring P result -> rewriteLoop fuel redirects result = OutOfFuel.
Proof.
  intros Hcycle. induction fuel as [|fuel IH]; intros result (e & s & inc & He & Hs & HP);
    simpl; [done|].
  rewrite rewritePass_spec. simpl.
  destruct (Hcycle inc HP) as (target & Htarget & HPtarget).
  assert (Hchanged : existsb (fun e => anyRedirected redirects (incoming e)) result = true).
  { apply existsb_exists. exists e. split; [done|]. apply anyRedirected_true.
    exists s, inc. split; [done|]. unfold redirected. by rewrite Htarget. }
  rewrite Hchanged. apply IH.
  exists (followElement redirects e), s, target. split; [by apply in_map|]. split; [|done].
  simpl. replace target with (follow redirects inc) by (unfold follow; by rewrite Htarget).
  by apply followEntries_In.
Qed.

Lemma registerOutputs_single g groupOut redirects export :
  gout_exports groupOut = [export] ->
  registerOutputs g groupOut redirects
  = <[redirectKey (group_elementId g) (goe_id export) := Some (goe_target export)]> redirects.
Proof. unfold registerOutputs. by intros ->. Qed.

(** X14. A redirect cycle is not detected.  In a graph whose only group,
    which holds no group itself, has a single output export fed by a
    reference with the redirect key of that very output, and in which
    some node is wired to that key, the rewriting loop of [flatten]
    changes the wiring in every round and never ends. *)
Theorem flatten_self_fed_output_diverges fuel pre post sub g groupIn groupOut export
    consumer socket wire :
  Forall notGroup pre -> Forall notGroup post -> Forall notGroup sub ->
  findGroupInput sub = Some groupIn -> findGroupOutput sub = Some groupOut ->
  gout_exports groupOut = [export] ->
  redirectKey (inc_elementId (goe_target export)) (inc_socket (goe_target export))
  = redirectKey (group_elementId g) (goe_id export) ->
  In consumer (nodesOf (pre ++ Group g sub :: post)) ->
  In (socket, wire) (incoming consumer) ->
  redirectKey (inc_elementId wire) (inc_socket wire)
  = redirectKey (group_elementId g) (goe_id export) ->
  flatten fuel (pre ++ Group g sub :: post) = OutOfFuel.
Proof.
  intros Hpre Hpost Hsub Hin Hout Hexports Htarget Hconsumer Hwire Hkey.
  unfold flatten, flattenBody. destruct (decide (fuel = 0)) as [->|Hfuel].
  - rewrite collect_app, (collect_notGroup _ _ Hpre). simpl. rewrite Hin, Hout.
    unfold flattenBody. rewrite (collect_notGroup _ _ Hsub). done.
  - rewrite (collect_single_group _ pre post sub g groupIn groupOut (nodesOf sub)
               Hpre Hpost Hin Hout).
    + simpl obind. cbv beta iota. rewrite (registerOutputs_single _ _ _ _ Hexports).
      apply (rewriteLoop_cycle _
               (fun inc => redirectKey (inc_elementId inc) (inc_socket inc)
                           = redirectKey (group_elementId g) (goe_id export))).
      * intros inc Hinc. exists (goe_target export). split; [|done].
        unfold redirectOf. by rewrite Hinc, lookup_insert_eq.
      * exists consumer, socket, wire. split; [|done].
        rewrite nodesOf_app in Hconsumer. exact Hconsumer.
    + simpl. unfold flattenBody. rewrite (collect_notGroup _ _ Hsub). simpl obind.
      cbv beta iota. destruct fuel as [|fuel']; [done|].
      apply rewriteLoop_settled, noneRedirected_empty.
Qed.

Lemma flatten_self_fed_output_diverges_witness :
  flatten 1000 ([] ++ Group SelfFed.group [GroupInput SelfFed.groupIn; GroupOutput SelfFed.groupOut]
                   :: [Node SelfFed.consumer])
  = OutOfFuel.
Proof.
  apply (flatten_self_fed_output_diverges 1000 []
           [Node SelfFed.consumer] [GroupInput SelfFed.groupIn; GroupOutput SelfFed.groupOut]
           SelfFed.group SelfFed.groupIn SelfFed.groupOut
           (mkGroupOutputExport "o" None (TypeTag "number") (mkIncoming "loop" "o"))
           SelfFed.consumer "a" (mkIncoming "loop" "o")).
  - constructor.
  - repeat constructor.
  - repeat constructor.
  - reflexivity.
  - reflexivity.
  - reflexivity.
  - reflexivity.
  - simpl. auto.
  - simpl. auto.
  - reflexivity.
Defined.

Lemma rewriteLoop_fixed fuel redirects :
  forall result out,
    rewriteLoop fuel redirects result = Returned out ->
    existsb (fun e => anyRedirected redirects (incoming e)) out = false.
Proof.
  induction fuel as [|fuel IH]; intros result out; simpl; [done|].
  rewrite rewritePass_spec. simpl.
  destruct (existsb _ result) eqn:Echanged; [apply IH|].
  intros [= <-].
  assert (Hid : map (followElement redirects) result = result).
  { clear IH. induction result as [|e rest IHr]; simpl in *; [done|].
    apply orb_false_elim in Echanged as [He Hrest].
    unfold followElement at 1. by rewrite (followEntries_id _ _ He), withIncoming_same, IHr. }
  by rewrite Hid.
Qed.

(** X15. When [flatten] returns, no wiring of its output is a key of the
    redirect table built from the top-level elements of the graph with a
    defined target: the rewriting stops only after a round that found
    nothing to redirect. *)
Theorem flatten_output_is_settled fuel (graph : NodeGraph) flattened redirects out
    e socket inc :
  collect (flattenGroup fuel) graph [] ∅ = Returned (flattened, redirects) ->
  flatten fuel graph = Returned out ->
  In e out -> In (socket, inc) (incoming e) ->
  redirectOf redirects inc = None.
Proof.
  unfold flatten, flattenBody. intros -> Hloop He Hs. simpl in Hloop.
  apply rewriteLoop_fixed in Hloop.
  destruct (redirectOf redirects inc) as [target|] eqn:Hredirect; [|done].
  assert (Hsome : existsb (fun e => anyRedirected redirects (incoming e)) out = true);
    [|congruence].
  apply existsb_exists. exists e. split; [done|]. apply anyRedirected_true.
  exists socket, inc. split; [done|]. unfold redirected. by rewrite Hredirect.
Qed.

Lemma flatten_output_is_settled_witness :
  redirectOf (<[ "group::o" := Some (mkIncoming "in" "a") ]>
                (<[ "in::a" := Some (mkIncoming "producer" "output") ]> ∅))
             (mkIncoming "producer" "output")
  = None.
Proof.
  apply (flatten_output_is_settled 3 StraightThrough.graph
           [constNode "producer" 7; StraightThrough.consumer (mkIncoming "group" "o")]
           _ [constNode "producer" 7; StraightThrough.consumer (mkIncoming "producer" "output")]
           (StraightThrough.consumer (mkIncoming "producer" "output")) "a").
  - vm_compute. reflexivity.
  - vm_compute. reflexivity.
  - simpl. auto.
  - simpl. auto.
Defined.

(** ** The redirect table *)

Lemma append_inj_l (a b c : string) : a +:+ b = a +:+ c -> b = c.
Proof. induction a as [|ch a IH]; simpl; [done|]. intros [= H]. auto. Qed.

Lemma redirectKey_inj_socket owner socket socket' :
  redirectKey owner socket = redirectKey owner socket' -> socket = socket'.
Proof. unfold redirectKey. intros H. by do 2 apply append_inj_l in H. Qed.

Lemma classic_export_in (exports : list GroupInputExport) (id : string) :
  (exists e, In e exports /\ gie_id e = id) \/ (forall e, In e exports -> gie_id e <> id).
Proof.
  induction exports as [|e0 rest IH]; [right; by intros e []|].
  destruct (decide (gie_id e0 = id)) as [Heq|Hne].
  - left. exists e0. split; [by left|done].
  - destruct IH as [(e & He & Hid)|Hnone].
    + left. exists e. split; [by right|done].
    + right. intros e [<-|He]; auto.
Qed.

Lemma registerInputs_fold_other (g : GroupElement) (owner key : string)
    (exports : list GroupInputExport) :
  forall redirects : Redirects,
    (forall e, In e exports -> redirectKey owner (gie_id e) <> key) ->
    fold_left (fun r e => <[redirectKey owner (gie_id e) := dict_get (group_incoming g) (gie_id e)]> r)
              exports redirects !! key
    = redirects !! key.
Proof.
  induction exports as [|e0 rest IH]; intros redirects Hother; simpl; [done|].
  rewrite IH; [|intros e He; apply Hother; by right].
  apply lookup_insert_ne. apply Hother. by left.
Qed.

Lemma registerInputs_fold_lookup (g : GroupElement) (owner id : string)
    (exports : list GroupInputExport) :
  forall redirects : Redirects,
    (exists e, In e exports /\ gie_id e = id) ->
    fold_left (fun r e => <[redirectKey owner (gie_id e) := dict_get (group_incoming g) (gie_id e)]> r)
              exports redirects !! redirectKey owner id
    = Some (dict_get (group_incoming g) id).
Proof.
  induction exports as [|e0 rest IH]; intros redirects (e & He & Hid); [done|]. simpl.
  destruct (classic_export_in rest id) as [Hrest|Hnone]; [by apply IH|].
  destruct He as [->|He]; [|by destruct (Hnone e He)].
  rewrite registerInputs_fold_other.
  - rewrite Hid. apply lookup_insert_eq.
  - intros e' He' Hkey. apply redirectKey_inj_socket in Hkey. by destruct (Hnone e' He').
Qed.

(** X16. After the input exports of a group are registered, a reference
    to an exported input of its [group-input] marker is redirected to
    what the group's own [incoming] map holds for the export id, whatever
    the table held before; when the group does not wire the export, the
    reference has no redirect any more.  This for an export that the
    group wires, or whose id is not the name of a member of
    [Object.prototype] (for such an id the read of the group's
    [incoming] gives the inherited member, which is stored). *)
Theorem registerInputs_redirect g groupIn redirects e :
  In e (gin_exports groupIn) ->
  (dict_get (group_incoming g) (gie_id e) = None -> inheritedKey (gie_id e) = false) ->
  redirectOf (registerInputs g groupIn redirects)
             (mkIncoming (gin_elementId groupIn) (gie_id e))
  = dict_get (group_incoming g) (gie_id e).
Proof.
  intros He _. unfold redirectOf, registerInputs. simpl.
  rewrite registerInputs_fold_lookup by eauto.
  by destruct (dict_get (group_incoming g) (gie_id e)).
Qed.

Lemma registerInputs_redirect_witness :
  redirectOf (registerInputs (mkGroup "group" None 0%Z 0%Z 120%Z []) StraightThrough.groupIn
                (<[ "in::a" := Some (mkIncoming "stale" "output") ]> ∅))
             (mkIncoming "in" "a")
  = None.
Proof.
  apply (registerInputs_redirect (mkGroup "group" None 0%Z 0%Z 120%Z []) StraightThrough.groupIn
           (<[ "in::a" := Some (mkIncoming "stale" "output") ]> ∅)
           (mkGroupInputExport "a" None (TypeTag "number"))).
  - simpl. auto.
  - reflexivity.
Defined.

Lemma registerOutputs_fold_other (owner key : string) (exports : list GroupOutputExport) :
  forall redirects : Redirects,
    (forall e, In e exports -> redirectKey owner (goe_id e) <> key) ->
    fold_left (fun r e => <[redirectKey owner (goe_id e) := Some (goe_target e)]> r)
              exports redirects !! key
    = redirects !! key.
Proof.
  induction exports as [|e0 rest IH]; intros redirects Hother; simpl; [done|].
  rewrite IH; [|intros e He; apply Hother; by right].
  apply lookup_insert_ne. apply Hother. by left.
Qed.

(** X17. After the output exports of a group are registered, a reference
    to an exported output of the group is redirected to the target of
    the last export that carries that id, whatever the table held
    before. *)
Theorem registerOutputs_redirect g groupOut redirects earlier e later :
  gout_exports groupOut = earlier ++ e :: later ->
  (forall e', In e' later -> goe_id e' <> goe_id e) ->
  redirectOf (registerOutputs g groupOut redirects)
             (mkIncoming (group_elementId g) (goe_id e))
  = Some (goe_target e).
Proof.
  intros Hexports Hlast. unfold redirectOf, registerOutputs. simpl.
  rewrite Hexports, fold_left_app. simpl. rewrite registerOutputs_fold_other.
  - by rewrite lookup_insert_eq.
  - intros e' He' Hkey. apply redirectKey_inj_socket in Hkey. by destruct (Hlast e' He').
Qed.

Lemma registerOutputs_redirect_witness :
  redirectOf (registerOutputs StraightThrough.group StraightThrough.groupOut ∅)
             (mkIncoming "group" "o")
  = Some (mkIncoming "in" "a").
Proof.
  apply (registerOutputs_redirect StraightThrough.group StraightThrough.groupOut ∅ []
           (mkGroupOutputExport "o" None (TypeTag "number") (mkIncoming "in" "a")) []).
  - reflexivity.
  - intros e' [].
Defined.

(** ** A straight-through group among other groups *)

Lemma collect_table rec elements :
  forall flattened redirects flattened' redirects',
    collect rec elements flattened redirects = Returned (flattened', redirects') ->
    redirects' = registerGroups elements redirects.
Proof.
  induction elements as [|el rest IH]; intros fl rd fl' rd'; simpl.
  - by intros [= _ <-].
  - destruct el as [f|n|g sub|gi|go]; try apply IH.
    destruct (findGroupInput sub); [|done]. destruct (findGroupOutput sub); [|done].
    destruct (rec (Group g sub)); [apply IH|done|done].
Qed.

Lemma registerGroups_app elements1 elements2 :
  forall redirects,
    registerGroups (elements1 ++ elements2) redirects
    = registerGroups elements2 (registerGroups elements1 redirects).
Proof.
  induction elements1 as [|el rest IH]; intros rd; simpl; [done|].
  destruct el as [f|n|g sub|gi|go]; try apply IH.
  destruct (findGroupInput sub); [|apply IH]. destruct (findGroupOutput sub); apply IH.
Qed.

Lemma registerGroups_other elements key :
  (forall el, In el elements -> ~ In key (registeredKeys el)) ->
  forall redirects, registerGroups elements redirects !! key = redirects !! key.
Proof.
  induction elements as [|el rest IH]; intros Hother rd; simpl; [done|].
  assert (Hrest : forall el', In el' rest -> ~ In key (registeredKeys el'))
    by (intros el' Hel'; apply Hother; by right).
  pose proof (Hother el (or_introl eq_refl)) as Hel.
  destruct el as [f|n|g sub|gi|go]; try (by apply IH).
  simpl in Hel. destruct (findGroupInput sub) as [groupIn|]; [|by apply IH].
  destruct (findGroupOutput sub) as [groupOut|]; [|by apply IH].
  rewrite IH by done. unfold registerOutputs. rewrite registerOutputs_fold_other.
  - unfold registerInputs. apply registerInputs_fold_other.
    intros e He Hkey. apply Hel, in_or_app. left. rewrite <- Hkey.
    by apply (in_map (fun e => redirectKey (gin_elementId groupIn) (gie_id e))).
  - intros e He Hkey. apply Hel, in_or_app. right. rewrite <- Hkey.
    by apply (in_map (fun e => redirectKey (group_elementId g) (goe_id e))).
Qed.

Lemma rewriteLoop_rounds fuel redirects :
  forall result out,
    rewriteLoop fuel redirects result = Returned out ->
    exists k, out = map (followRounds redirects k) result.
Proof.
  induction fuel as [|fuel IH]; intros result out; simpl; [done|].
  rewrite rewritePass_spec. simpl. destruct (existsb _ result).
  - intros H. apply IH in H as [k ->]. exists (S k). by rewrite map_map.
  - intros [= <-]. by exists 1.
Qed.

Lemma followRounds_sameFrame redirects k : forall e, sameFrame (followRounds redirects k e) e.
Proof.
  induction k as [|k IH]; intros e; simpl; [apply sameFrame_refl|].
  eapply sameFrame_trans; [apply IH|apply followElement_sameFrame].
Qed.

Lemma followRounds_get redirects k :
  forall e socket inc,
    dict_get (incoming e) socket = Some inc ->
    dict_get (incoming (followRounds redirects k e)) socket
    = Some (followChain redirects k inc).
Proof.
  induction k as [|k IH]; intros e socket inc Hget; simpl; [done|].
  apply IH. simpl. unfold followEntries. by rewrite dict_get_map, Hget.
Qed.

Lemma followChain_settled redirects k inc :
  redirectOf redirects inc = None -> followChain redirects k inc = inc.
Proof.
  intros Hnone. induction k as [|k IH]; simpl; [done|].
  unfold follow. by rewrite Hnone.
Qed.

Lemma settled_get redirects out e socket inc :
  existsb (fun e => anyRedirected redirects (incoming e)) out = false ->
  In e out -> dict_get (incoming e) socket = Some inc ->
  redirectOf redirects inc = None.
Proof.
  intros Hnone He Hget. apply dict_get_In in Hget.
  destruct (redirectOf redirects inc) as [target|] eqn:Htarget; [|done].
  assert (Htrue : existsb (fun e => anyRedirected redirects (incoming e)) out = true);
    [|congruence].
  apply existsb_exists. exists e. split; [done|].
  unfold anyRedirected. apply existsb_exists. exists (socket, inc). split; [done|].
  unfold redirected. by rewrite Htarget.
Qed.





(** ** Wiring into nested groups *)

Lemma redirectOf_singleton key target inc :
  redirectOf (<[key := Some target]> ∅) inc
  = if decide (redirectKey (inc_elementId inc) (inc_socket inc) = key) then Some target else None.
Proof.
  unfold redirectOf. case_decide as Hkey.
  - by rewrite Hkey, lookup_insert_eq.
  - rewrite lookup_insert_ne by done. by rewrite lookup_empty.
Qed.

Lemma singleton_settles key target result :
  redirectKey (inc_elementId target) (inc_socket target) <> key ->
  allSettleWithin (<[key := Some target]> ∅) 1 result = true.
Proof.
  intros Htarget. unfold allSettleWithin. apply forallb_forall. intros e _.
  apply forallb_forall. intros [s inc] _. simpl.
  rewrite (redirectOf_singleton key target inc). case_decide; [|done].
  rewrite redirectOf_singleton. by case_decide.
Qed.

Lemma singleton_resolve key target inc :
  redirectKey (inc_elementId inc) (inc_socket inc) = key ->
  resolve (<[key := Some target]> ∅) 1 inc = target.
Proof. intros Hkey. simpl. rewrite redirectOf_singleton. by case_decide. Qed.

Lemma resolveElement_sameFrame redirects n e : sameFrame (resolveElement redirects n e) e.
Proof.
  repeat split; simpl. unfold dict_keys. rewrite map_map. apply map_ext. by intros [? ?].
Qed.

Lemma resolveElement_get redirects n e socket :
  dict_get (incoming (resolveElement redirects n e)) socket
  = resolve redirects n <$> dict_get (incoming e) socket.
Proof. unfold resolveElement. cbn [incoming withIncoming]. apply dict_get_map. Qed.

(** A graph whose only group has no output export and one input export. *)
Lemma flattenBody_single_input rec fuel pre post sub g groupIn groupOut inner a la ta wire :
  Forall notGroup pre -> Forall notGroup post ->
  findGroupInput sub = Some groupIn -> findGroupOutput sub = Some groupOut ->
  gin_exports groupIn = [mkGroupInputExport a la ta] ->
  gout_exports groupOut = [] ->
  dict_get (group_incoming g) a = Some wire ->
  redirectKey (inc_elementId wire) (inc_socket wire) <> redirectKey (gin_elementId groupIn) a ->
  rec (Group g sub) = Returned inner ->
  1 < fuel ->
  flattenBody rec fuel (pre ++ Group g sub :: post)
  = Returned (map (resolveElement (<[redirectKey (gin_elementId groupIn) a := Some wire]> ∅) 1)
                  (nodesOf pre ++ inner ++ nodesOf post)).
Proof.
  intros Hpre Hpost Hin Hout Hinputs Houtputs Hwired Hkey Hrec Hfuel. unfold flattenBody.
  rewrite (collect_single_group rec pre post sub g groupIn groupOut inner Hpre Hpost Hin Hout Hrec).
  simpl obind. cbv beta iota.
  unfold registerOutputs, registerInputs. rewrite Hinputs, Houtputs. simpl fold_left.
  rewrite Hwired. apply rewriteLoop_resolves; [|done]. by apply singleton_settles.
Qed.



(** * Properties of [calculate] *)

Example calculate_framed :
  calculate 2 Framed.graph (Frame Framed.frame) 16%Z Readme.registry
  = Returned (mkGeometry 0%Z 0%Z 120%Z 48%Z).
Proof. vm_compute. reflexivity. Qed.

Lemma includesId_true childrenIds id : includesId childrenIds id = true <-> In id childrenIds.
Proof.
  unfold includesId. rewrite existsb_exists. split.
  - intros (child & Hin & Heq). apply bool_decide_eq_true in Heq. by subst.
  - intros Hin. exists id. split; [done|]. by apply bool_decide_eq_true.
Qed.

Lemma frameChildren_ext graph ids1 ids2 :
  (forall id, In id ids1 <-> In id ids2) ->
  frameChildren graph ids1 = frameChildren graph ids2.
Proof.
  intros Hsame. unfold frameChildren. apply List.filter_ext. intros e.
  apply eq_true_iff_eq. by rewrite !includesId_true.
Qed.

(** X19. The geometry of a frame depends on its list of children ids
    only through the ids that occur in it: their order and repetitions,
    like the frame's own id and label, have no influence. *)
Theorem calculate_frame_children_as_set fuel graph f1 f2 socketHeight registry :
  (forall id, In id (childrenIds f1) <-> In id (childrenIds f2)) ->
  calculate fuel graph (Frame f1) socketHeight registry
  = calculate fuel graph (Frame f2) socketHeight registry.
Proof.
  intros Hsame. destruct fuel as [|fuel]; [done|]. simpl.
  by rewrite (frameChildren_ext graph _ _ Hsame).
Qed.

Lemma calculate_frame_children_as_set_witness :
  calculate 2 Framed.graph (Frame Framed.frame) 16%Z Readme.registry
  = calculate 2 Framed.graph
      (Frame (mkFrame "other" None ["const/a"; "const/b"; "const/a"])) 16%Z Readme.registry.
Proof.
  apply (calculate_frame_children_as_set 2 Framed.graph Framed.frame
           (mkFrame "other" None ["const/a"; "const/b"; "const/a"])).
  intros id. simpl. tauto.
Defined.

Lemma reduceChildren_returned calculateChild children :
  forall acc box,
    reduceChildren calculateChild children acc = Returned box ->
    forall e, In e children -> exists g, calculateChild e = Returned g.
Proof.
  induction children as [|c rest IH]; intros acc box Hred e; [done|]. simpl in Hred.
  destruct (calculateChild c) as [g| |] eqn:Hc; simpl in Hred; [|done|done].
  intros [<-|He]; [eauto|]. eapply IH; eauto.
Qed.

Lemma frameChildren_In graph ids e :
  In e (frameChildren graph ids) <-> In e graph /\ In (elementIdOf e) ids.
Proof.
  unfold frameChildren. by rewrite filter_In, includesId_true.
Qed.

(** X20. A frame that lists its own id among its children, and is an
    element of the graph, has no geometry: [calculate] calls itself on
    the frame again at every depth and never returns one. *)
Theorem calculate_self_containing_frame fuel graph f socketHeight registry geometry :
  In (Frame f) graph ->
  In (frame_elementId f) (childrenIds f) ->
  calculate fuel graph (Frame f) socketHeight registry <> Returned geometry.
Proof.
  intros Hgraph Hself. revert geometry. induction fuel as [|fuel IH]; intros geometry; [done|].
  simpl.
  destruct (reduceChildren _ (frameChildren graph (childrenIds f)) None) as [box| |] eqn:Hred;
    [|done|done].
  destruct (reduceChildren_returned _ _ _ _ Hred (Frame f)) as [g Hg].
  - by apply frameChildren_In.
  - by destruct (IH g).
Qed.

Lemma calculate_self_containing_frame_witness :
  calculate 50 [Frame (mkFrame "frame" None ["n"; "frame"]); Node (constNode "n" 1)]
            (Frame (mkFrame "frame" None ["n"; "frame"])) 16%Z Readme.registry
  <> Returned zeroGeometry.
Proof.
  apply (calculate_self_containing_frame 50
           [Frame (mkFrame "frame" None ["n"; "frame"]); Node (constNode "n" 1)]
           (mkFrame "frame" None ["n"; "frame"])).
  - simpl. auto.
  - simpl. auto.
Defined.

(** X21. A frame none of whose children ids is the id of an element of
    the graph gets the zero rectangle. *)
Theorem calculate_frame_without_children fuel graph f socketHeight registry :
  (forall e, In e graph -> ~ In (elementIdOf e) (childrenIds f)) ->
  calculate (S fuel) graph (Frame f) socketHeight registry = Returned zeroGeometry.
Proof.
  intros Hnone. simpl.
  assert (Hempty : frameChildren graph (childrenIds f) = []); [|by rewrite Hempty].
  destruct (frameChildren graph (childrenIds f)) as [|e rest] eqn:Hchildren; [done|].
  assert (He : In e (frameChildren graph (childrenIds f))) by (rewrite Hchildren; by left).
  apply frameChildren_In in He as [Hin Hid]. by destruct (Hnone e Hin).
Qed.

Lemma calculate_frame_without_children_witness :
  calculate 1 Readme.graph (Frame (mkFrame "frame" None ["const/c"])) 16%Z Readme.registry
  = Returned zeroGeometry.
Proof.
  apply (calculate_frame_without_children 0 Readme.graph (mkFrame "frame" None ["const/c"])).
  intros e [<-|[<-|[<-|[]]]]; simpl; intuition discriminate.
Defined.

Lemma reduceChildren_thrown calculateChild children :
  forall acc msg,
    reduceChildren calculateChild children acc = Thrown msg ->
    exists e, In e children /\ calculateChild e = Thrown msg.
Proof.
  induction children as [|c rest IH]; intros acc msg; simpl; [done|].
  destruct (calculateChild c) as [g|msg'|] eqn:Hc; simpl.
  - intros H. apply IH in H as (e & He & Hthrown). exists e. split; [by right|done].
  - intros [= <-]. exists c. split; [by left|done].
  - done.
Qed.

(** X22. An error thrown by [calculate] is the error for a boundary
    marker, which has no geometry, an error that the registry threw for
    a type id, an error that [input] or [output] of a node type that the
    registry returned threw, or the error of the engine when the
    recursion through frames exhausts the call stack. *)
Theorem calculate_errors fuel graph element socketHeight registry msg :
  calculate fuel graph element socketHeight registry = Thrown msg ->
  msg = rangeError \/
  msg = "Unable to calculate geometry for group-input" \/
  msg = "Unable to calculate geometry for group-output" \/
  (exists typeId, registry typeId = Thrown msg) \/
  (exists typeId type config,
      registry typeId = Returned type /\
      (input type config = Thrown msg \/ output type config = Thrown msg)).
Proof.
  revert element. induction fuel as [|fuel IH]; intros element.
  { intros [= <-]. by left. }
  simpl. destruct element as [f|n|g sub|gi|go].
  - destruct (reduceChildren _ (frameChildren graph (childrenIds f)) None) as [box|msg'|] eqn:Hred;
      simpl; [done| |done].
    intros [= <-]. apply reduceChildren_thrown in Hred as (e & _ & Hthrown). eauto.
  - destruct (registry (typeId n)) as [type|msg'|] eqn:Htype; simpl; [| |done].
    + destruct (input type (config n)) as [inputDesc|msg'|] eqn:Hinput; simpl; [| |done].
      * destruct (output type (config n)) as [outputDesc|msg'|] eqn:Houtput; simpl;
          [done| |done].
        intros [= <-]. do 4 right. exists (typeId n), type, (config n). auto.
      * intros [= <-]. do 4 right. exists (typeId n), type, (config n). auto.
    + intros [= <-]. do 3 right. left. eauto.
  - done.
  - intros [= <-]. right. by left.
  - intros [= <-]. right. right. by left.
Qed.

Lemma calculate_errors_witness :
  "Unable to calculate geometry for group-output" = rangeError \/
  "Unable to calculate geometry for group-output"
  = "Unable to calculate geometry for group-input" \/
  "Unable to calculate geometry for group-output"
  = "Unable to calculate geometry for group-output" \/
  (exists typeId,
      Readme.registry typeId = Thrown "Unable to calculate geometry for group-output") \/
  (exists typeId type config,
      Readme.registry typeId = Returned type /\
      (input type config = Thrown "Unable to calculate geometry for group-output" \/
       output type config = Thrown "Unable to calculate geometry for group-output")).
Proof.
  apply (calculate_errors 2
           [Frame (mkFrame "frame" None ["out"]); GroupOutput StraightThrough.groupOut]
           (Frame (mkFrame "frame" None ["out"])) 16%Z Readme.registry).
  vm_compute. reflexivity.
Defined.

Lemma reduceChildren_returns calculateChild children :
  (forall e, In e children -> exists g, calculateChild e = Returned g) ->
  forall acc, exists box, reduceChildren calculateChild children acc = Returned box.
Proof.
  induction children as [|c rest IH]; intros Hall acc; simpl; [eauto|].
  destruct (Hall c (or_introl eq_refl)) as [g ->]. simpl.
  apply IH. intros e He. apply Hall. by right.
Qed.

Lemma calculate_frame_step fuel graph f socketHeight registry :
  calculate (S fuel) graph (Frame f) socketHeight registry
  = obind (reduceChildren (fun e => calculate fuel graph e socketHeight registry)
                          (frameChildren graph (childrenIds f)) None)
          (fun box => Returned (match box with
                                | Some geometry => geometry
                                | None => zeroGeometry
                                end)).
Proof. reflexivity. Qed.

(** X24. Given a call stack of depth two, [calculate] returns a geometry
    for a frame whose children in the graph are groups and nodes of a
    type that the registry resolves and whose [input] and [output] return
    for the node's configuration; it asks the registry for no other
    type. *)
Theorem calculate_frame_of_nodes_and_groups fuel graph f socketHeight registry :
  (forall e, In e graph -> In (elementIdOf e) (childrenIds f) ->
             (exists n type inputDesc outputDesc,
                 e = Node n /\ registry (typeId n) = Returned type /\
                 input type (config n) = Returned inputDesc /\
                 output type (config n) = Returned outputDesc) \/
             (exists g sub, e = Group g sub)) ->
  exists geometry,
    calculate (S (S fuel)) graph (Frame f) socketHeight registry = Returned geometry.
Proof.
  intros Hchildren. rewrite calculate_frame_step.
  destruct (reduceChildren_returns
              (fun e => calculate (S fuel) graph e socketHeight registry)
              (frameChildren graph (childrenIds f))) with (acc := @None Geometry) as [box Hbox].
  - intros e He. apply frameChildren_In in He as [Hin Hid].
    destruct (Hchildren e Hin Hid)
      as [(n & type & inputDesc & outputDesc & -> & Htype & Hinput & Houtput)|(g & sub & ->)];
      simpl.
    + rewrite Htype. simpl. rewrite Hinput. simpl. rewrite Houtput. simpl. eauto.
    + eauto.
  - rewrite Hbox. simpl. eauto.
Qed.

Lemma calculate_frame_of_nodes_and_groups_witness :
  exists geometry,
    calculate 2 Framed.graph (Frame Framed.frame) 16%Z Readme.registry = Returned geometry.
Proof.
  apply (calculate_frame_of_nodes_and_groups 0 Framed.graph Framed.frame 16%Z Readme.registry).
  intros e [<-|[<-|[<-|[<-|[]]]]]; simpl; intros H.
  - intuition discriminate.
  - left. eexists _, _, _, _. repeat split; reflexivity.
  - left. eexists _, _, _, _. repeat split; reflexivity.
  - intuition discriminate.
Defined.

(** * The order builder on forests *)

Lemma pushDependencies_rev graph top stack :
  pushDependencies graph top stack = rev (dependencies graph top) ++ stack.
Proof.
  unfold pushDependencies, dependencies. revert stack.
  induction (incoming top) as [|[s inc] rest IH]; intros stack; simpl; [done|].
  rewrite IH. destruct (findElement graph (inc_elementId inc)); simpl; [|done].
  by rewrite <- app_assoc.
Qed.

Lemma dependencies_In graph e d :
  In d (dependencies graph e) <->
  exists socket inc, In (socket, inc) (incoming e) /\
                     findElement graph (inc_elementId inc) = Some d.
Proof.
  unfold dependencies. rewrite <- list_elem_of_In, list_elem_of_omap. split.
  - intros ([s inc] & Hin & Hfind). apply list_elem_of_In in Hin. eauto.
  - intros (s & inc & Hin & Hfind). exists (s, inc). by rewrite list_elem_of_In.
Qed.

Lemma dependencies_found graph e d : In d (dependencies graph e) -> found graph d.
Proof. intros (s & inc & _ & Hfind)%dependencies_In. eauto using findElement_is_found. Qed.

Lemma found_In_ids graph l d :
  found graph d -> Forall (found graph) l -> In (elementId d) (ids l) -> In d l.
Proof.
  intros Hd Hl Hin. unfold ids in Hin. apply in_map_iff in Hin as (e & Heq & He).
  rewrite Forall_forall in Hl. assert (e = d) as <-; [|done].
  apply (found_unique graph); auto. apply Hl. by apply list_elem_of_In.
Qed.

Lemma NoDup_ids_found graph l :
  Forall (found graph) l -> NoDup (ids l) -> NoDup l.
Proof. intros _. unfold ids. apply NoDup_fmap_1. Qed.

Lemma NoDup_rev_list {A : Type} (l : list A) : NoDup l -> NoDup (rev l).
Proof.
  induction 1 as [|a l Hnotin _ IH]; simpl; [constructor|].
  apply NoDup_app. split; [done|]. split; [|apply NoDup_singleton].
  intros b Hb ->%list_elem_of_singleton. apply Hnotin.
  by apply list_elem_of_In, in_rev, list_elem_of_In.
Qed.

Lemma visit_forest graph fuel :
  forest graph ->
  forall stack evalOrder out,
    forestInvariant graph stack evalOrder ->
    visit fuel graph stack evalOrder = Returned out ->
    forestInvariant graph [] out.
Proof.
  intros [Hdistinct Hparent].
  induction fuel as [|fuel IH]; intros stack evalOrder out Hinv.
  - destruct stack; simpl; [|done]. by intros [= <-].
  - destruct stack as [|top stack']; simpl; [by intros [= <-]|].
    destruct Hinv as [Hstack Horder Hnodup Hfresh Hbefore Hpar].
    apply Forall_cons in Hstack as [Htop Hstack].
    assert (Hnew : includes evalOrder top = false).
    { apply includes_false. intros Hin. apply (Hfresh top); [by left|].
      eauto using found_In_ids. }
    rewrite Hnew. apply IH. rewrite pushDependencies_rev.
    apply NoDup_cons in Hnodup as [Htop_stack Hnodup]. rewrite list_elem_of_In in Htop_stack.
    assert (Hdeps_new : forall d, In d (dependencies graph top) ->
                                  ~ (In d (top :: stack') \/ In d evalOrder)).
    { intros d Hd Hold. destruct (Hpar d) as [Hroot|(p & Hp & Hdp)].
      - destruct Hold as [Hold|Hold]; auto.
      - by apply (Hroot top).
      - assert (p = top) as ->.
        { apply (Hparent p top d); auto. rewrite Forall_forall in Horder.
          apply Horder. by apply list_elem_of_In. }
        apply (Hfresh top); [by left|done]. }
    split.
    + apply Forall_app. split; [|done]. apply Forall_forall. intros d Hd.
      apply list_elem_of_In, in_rev in Hd. eauto using dependencies_found.
    + by constructor.
    + apply NoDup_app. split; [|split; [|done]].
      * apply NoDup_rev_list. eapply NoDup_ids_found; [|by apply Hdistinct].
        apply Forall_forall. intros d Hd. apply list_elem_of_In in Hd.
        eauto using dependencies_found.
      * intros d Hd Hd'. apply list_elem_of_In, in_rev in Hd. apply list_elem_of_In in Hd'.
        apply (Hdeps_new d Hd). left. by right.
    + intros d Hd [->|Hin].
      * apply in_app_or in Hd as [Hd|Hd]; [|done].
        apply in_rev in Hd. apply (Hdeps_new d Hd). left. by left.
      * apply in_app_or in Hd as [Hd|Hd].
        -- apply in_rev in Hd. apply (Hdeps_new d Hd). by right.
        -- apply (Hfresh d); [by right|done].
    + intros l1 e l2 d Hsplit Hd. destruct l1 as [|x l1']; simpl in Hsplit;
        injection Hsplit as <- Hsplit.
      * left. apply in_or_app. left. by apply in_rev in Hd.
      * destruct (Hbefore l1' e l2 d Hsplit Hd) as [[<-|Hin]|Hin].
        -- right. by left.
        -- left. apply in_or_app. by right.
        -- right. by right.
    + intros d Hd.
      assert (Hcases : In d (dependencies graph top) \/ In d (top :: stack') \/ In d evalOrder).
      { destruct Hd as [Hd|[<-|Hd]]; [|right; left; by left|by right; right].
        apply in_app_or in Hd as [Hd|Hd]; [left; by apply in_rev in Hd|].
        right. left. by right. }
      destruct Hcases as [Hdep|Hold].
      * right. exists top. split; [by left|done].
      * destruct (Hpar d) as [Hroot|(p & Hp & Hdp)]; [tauto|by left|].
        right. exists p. split; [by right|done].
Qed.

Lemma buildEvalOrderFrom_forest graph targetIds :
  forest graph -> targetsAreRoots graph targetIds ->
  forall evalOrder out,
    forestInvariant graph [] evalOrder ->
    buildEvalOrderFrom graph targetIds evalOrder = Returned out ->
    forestInvariant graph [] out.
Proof.
  intros Hforest. induction targetIds as [|id rest IH]; intros Hroots evalOrder out Hinv;
    cbn [buildEvalOrderFrom]; [by intros [= <-]|].
  destruct (findElement graph id) as [element|] eqn:Hid; [|done].
  destruct (visit (visitFuel graph) graph [element] evalOrder) as [mid| |] eqn:Hvisit;
    cbn [obind]; [|done|done].
  apply IH; [intros t et Ht; apply Hroots; by right|].
  destruct (includes evalOrder element) eqn:Hinc.
  - unfold visitFuel in Hvisit. simpl in Hvisit. rewrite Hinc in Hvisit.
    destruct (sum_list_with _ graph); simpl in Hvisit; by injection Hvisit as <-.
  - eapply visit_forest; [done| |exact Hvisit].
    destruct Hinv as [_ Horder _ _ Hbefore Hpar].
    assert (Helement : found graph element) by eauto using findElement_is_found.
    split.
    + by constructor.
    + done.
    + apply NoDup_singleton.
    + intros d [<-|[]] Hin. apply includes_false in Hinc. apply Hinc.
      unfold ids. by apply in_map.
    + intros l1 e l2 d Hsplit Hd. destruct (Hbefore l1 e l2 d Hsplit Hd) as [[]|?]. by right.
    + intros d [[<-|[]]|Hd].
      * left. apply (Hroots id); [by left|done].
      * apply Hpar. by right.
Qed.

Lemma buildEvalOrder_forest_invariant graph targetIds evalOrder :
  forest graph -> targetsAreRoots graph targetIds ->
  buildEvalOrder graph targetIds = Returned evalOrder ->
  forestInvariant graph [] evalOrder.
Proof.
  intros Hforest Hroots Hbuild.
  eapply buildEvalOrderFrom_forest; [done|done| |exact Hbuild].
  split; [constructor|constructor|constructor|by intros d []| |].
  - intros pre e post d Hsplit. by destruct pre.
  - intros d [[]|[]].
Qed.

(** X25. On a flat graph in which no element feeds two sockets and no
    requested target feeds a socket (the targets are the roots of a
    forest), the order that [buildEvalGraph] builds is topological:
    every dependency that an element names and that the graph holds
    sits at a smaller position. *)
Theorem buildEvalOrder_forest_topological graph targetIds evalOrder :
  forest graph -> targetsAreRoots graph targetIds ->
  buildEvalOrder graph targetIds = Returned evalOrder ->
  topologicallyOrdered graph evalOrder.
Proof.
  intros Hforest Hroots Hbuild.
  destruct (buildEvalOrder_forest_invariant _ _ _ Hforest Hroots Hbuild)
    as [_ _ _ _ Hbefore _].
  intros i e socket inc Hi Hs.
  destruct (findElement graph (inc_elementId inc)) as [d|] eqn:Hfind; [|by right].
  left. pose proof (take_drop_middle evalOrder i e Hi) as Hsplit.
  destruct (Hbefore (take i evalOrder) e (drop (S i) evalOrder) d (eq_sym Hsplit))
    as [[]|Hin].
  { apply dependencies_In. eauto. }
  apply list_elem_of_In, list_elem_of_lookup in Hin as [j Hj].
  apply lookup_take_Some in Hj as [Hj Hlt].
  exists j, d. split; [done|]. split; [done|]. eauto using findElement_found.
Qed.

Lemma readme_forest : forest (nodesOf Readme.graph).
Proof.
  split.
  - intros e He. unfold found in He.
    destruct (findElement_In _ _ _ He) as [<-|[<-|[<-|[]]]]; vm_compute;
      repeat constructor; rewrite list_elem_of_In; simpl; intuition discriminate.
  - intros e1 e2 d He1 He2.
    destruct (findElement_In _ _ _ He1) as [<-|[<-|[<-|[]]]];
      destruct (findElement_In _ _ _ He2) as [<-|[<-|[<-|[]]]];
      vm_compute; tauto.
Qed.

Lemma readme_roots : targetsAreRoots (nodesOf Readme.graph) ["math/add"].
Proof.
  intros t et [<-|[]] [= <-] e He.
  destruct (findElement_In _ _ _ He) as [<-|[<-|[<-|[]]]]; vm_compute;
    intuition discriminate.
Qed.

Lemma buildEvalOrder_forest_topological_witness :
  topologicallyOrdered (nodesOf Readme.graph) (nodesOf Readme.graph).
Proof.
  apply (buildEvalOrder_forest_topological (nodesOf Readme.graph) ["math/add"]).
  - exact readme_forest.
  - exact readme_roots.
  - vm_compute. reflexivity.
Defined.

(** X26. On a forest whose roots are the requested targets, when every
    element of the graph is evaluable (the registry resolves its type,
    [input(config)] returns the socket descriptors, [evaluate] returns a
    record for every input record, and no declared socket that the
    element leaves without wiring carries the name of a member of
    [Object.prototype]) and every producer wired to a declared input
    socket is an element of the graph, building the evaluator and
    running it returns a result map: the invariant-violation error is
    not reached. *)
Theorem forest_evaluation_returns graph targetIds registry :
  forest graph -> targetsAreRoots graph targetIds ->
  Forall (fun id => is_Some (findElement graph id)) targetIds ->
  (forall e, In e graph -> evaluable registry e) ->
  (forall e inc, In e graph -> In inc (declaredWirings registry e) ->
                 is_Some (findElement graph (inc_elementId inc))) ->
  exists evalGraph results,
    buildEvalGraph graph targetIds = Returned evalGraph /\
    evalGraph registry = Returned results.
Proof.
  intros Hforest Hroots Hpresent Htypes Hwired.
  destruct (buildEvalOrderFrom_returns graph targetIds Hpresent []) as [evalOrder Hbuild].
  destruct (buildEvalOrder_forest_invariant _ _ _ Hforest Hroots Hbuild)
    as [_ _ _ _ Hbefore _].
  destruct (buildEvalOrderFrom_invariant graph targetIds [] evalOrder
              (orderInvariant_nil graph) Hbuild) as ([_ Hfound _ _] & _).
  assert (Hgraph : forall e, In e evalOrder -> In e graph).
  { intros e He. rewrite Forall_forall in Hfound.
    eapply findElement_In, Hfound. by apply list_elem_of_In. }
  unfold buildEvalGraph, buildEvalOrder. rewrite Hbuild. cbn [obind].
  exists (evaluator evalOrder). unfold evaluator.
  destruct (runOrder_returns registry evalOrder ∅ []) as (r & calls' & Hrun).
  - intros e He. auto.
  - intros before e after inc Hsplit Hinc. right.
    assert (He : In e evalOrder) by (rewrite Hsplit; apply in_or_app; right; by left).
    destruct (Htypes e (Hgraph e He)) as (type & inputDesc & Htype & Hinput & _).
    pose proof Hinc as Hdecl.
    apply (declaredWirings_In _ _ _ _ _ Htype Hinput) in Hdecl as (s & d & _ & Hget).
    destruct (Hwired e inc (Hgraph e He) Hinc) as [d' Hd'].
    destruct (Hbefore before e after d' Hsplit) as [[]|Hin].
    { apply dependencies_In. eauto using dict_get_In. }
    rewrite <- (findElement_found _ _ _ Hd'). unfold ids. by apply in_map.
  - exists r. split; [done|]. by rewrite Hrun.
Qed.

Lemma forest_evaluation_returns_witness :
  exists evalGraph results,
    buildEvalGraph (nodesOf Readme.graph) ["math/add"] = Returned evalGraph /\
    evalGraph SharedDependency.registry = Returned results.
Proof.
  apply forest_evaluation_returns.
  - exact readme_forest.
  - exact readme_roots.
  - repeat constructor. vm_compute. eauto.
  - exact readme_evaluable.
  - intros e inc [<-|[<-|[<-|[]]]]; vm_compute; intros H;
      repeat (destruct H as [<-|H]; [vm_compute; eauto|]); destruct H.
Defined.
